(** * Skyflow Lambda wrapper: a shallow embedding and its properties

    The development follows the JavaScript sources
    - [lambda/utils/headers.js]       (case-insensitive header lookup),
    - [lambda/handler.js]             (request validators),
    - [lambda/skyflow-client.js]      (client cache, batching, SDK calls),
    - [lambda/snowflake-handler.js]   (row-indexed transport).

    JavaScript values are embedded as a small JSON-like datatype, objects
    as association lists in [Object.keys] order, and the stateful,
    throwing code of [SkyflowClient] as a state-and-exception monad over
    the client cache, the backend and a log of the SDK calls issued. *)

From Stdlib Require Import Ascii DecimalString.
From stdpp Require Import gmap strings list fin_maps.

Set Warnings "-register-all".

Local Open Scope Z_scope.

(** ** JavaScript values *)

Module Js.

(** The values that reach this code come out of [JSON.parse]; numbers are
    the integers (row numbers, batch sizes, counts). *)
Inductive JsVal : Type :=
| JUndefined
| JNull
| JBool (b : bool)
| JNum (n : Z)
| JStr (s : string)
| JArr (items : list JsVal)
| JObj (props : list (string * JsVal)).

(** An object literal: its own enumerable properties, in [Object.keys]
    order. *)
Abbreviation JsObject := (list (string * JsVal)).

(** [ToBoolean]: what [if (v)], [!v] and [v || d] test. *)
Definition truthy (v : JsVal) : bool :=
  match v with
  | JUndefined | JNull => false
  | JBool b => b
  | JNum n => negb (n =? 0)
  | JStr s => negb (String.eqb s "")
  | JArr _ | JObj _ => true
  end.

(** [typeof v === 'object'] (which JavaScript also answers for [null]
    and for arrays). *)
Definition typeof_object (v : JsVal) : bool :=
  match v with
  | JNull | JArr _ | JObj _ => true
  | _ => false
  end.

Definition Array_isArray (v : JsVal) : bool :=
  match v with JArr _ => true | _ => false end.

(** Decimal rendering of an array index or of a [${index}] hole. *)
Definition showNat (n : nat) : string :=
  NilZero.string_of_uint (Nat.to_uint n).

(** Own enumerable properties of a value, in enumeration order: the
    properties of an object, the indices of an array or of a string.
    Members inherited from a prototype are not part of the model. *)
Definition indexed (items : list JsVal) : JsObject :=
  zip (map showNat (seq 0 (length items))) items.

Definition chars (s : string) : list JsVal :=
  map (fun c => JStr (String c EmptyString)) (String.list_ascii_of_string s).

Definition entries (v : JsVal) : JsObject :=
  match v with
  | JObj props => props
  | JArr items => indexed items
  | JStr s => indexed (chars s)
  | _ => []
  end.

Definition Object_keys (v : JsVal) : list string := map fst (entries v).

Fixpoint assoc (k : string) (props : JsObject) : option JsVal :=
  match props with
  | [] => None
  | (k', v) :: rest => if String.eqb k' k then Some v else assoc k rest
  end.

(** [o[k]] / [o.k] on a value that is neither [null] nor [undefined];
    a missing property reads as [undefined]. Arrays and strings also
    answer to [length]. *)
Definition prop (v : JsVal) (k : string) : JsVal :=
  match assoc k (entries v) with
  | Some x => x
  | None =>
      if String.eqb k "length" then
        match v with
        | JArr items => JNum (Z.of_nat (length items))
        | JStr s => JNum (Z.of_nat (String.length s))
        | _ => JUndefined
        end
      else JUndefined
  end.


(** [String.prototype.toLowerCase] on the ASCII range, where HTTP field
    names live. *)
Definition lower_char (c : Ascii.ascii) : Ascii.ascii :=
  let n := Ascii.nat_of_ascii c in
  if ((65 <=? n) && (n <=? 90))%nat then Ascii.ascii_of_nat (n + 32) else c.

Fixpoint toLowerCase (s : string) : string :=
  match s with
  | EmptyString => EmptyString
  | String c rest => String (lower_char c) (toLowerCase rest)
  end.

(** [Array.prototype.join]. *)
Definition join (sep : string) (l : list string) : string :=
  String.concat sep l.

Definition showZ (n : Z) : string :=
  NilZero.string_of_int (Z.to_int n).

(** [String(v)], as a template literal or a computed property key
    renders a value. *)
Fixpoint toString (v : JsVal) : string :=
  match v with
  | JUndefined => "undefined"
  | JNull => "null"
  | JBool true => "true"
  | JBool false => "false"
  | JNum n => showZ n
  | JStr s => s
  | JArr items =>
      join "," (map (fun x => match x with
                              | JUndefined | JNull => EmptyString
                              | _ => toString x
                              end) items)
  | JObj _ => "[object Object]"
  end.

(** [Array.prototype.sort] with the default comparison, on strings:
    ascending by code unit, which on ASCII is [String.leb]. *)
Fixpoint sort_insert (x : string) (l : list string) : list string :=
  match l with
  | [] => [x]
  | y :: rest => if String.leb x y then x :: l else y :: sort_insert x rest
  end.

Definition sort (l : list string) : list string :=
  foldr sort_insert [] l.

(** *** Exceptions *)

Inductive ErrClass := ErrorC | TypeErrorC | SkyflowErrorC.

Record JsError := mkJsError { err_class : ErrClass; err_message : string }.

Definition Error (msg : string) : JsError := mkJsError ErrorC msg.
Definition TypeError (msg : string) : JsError := mkJsError TypeErrorC msg.

(** A computation that returns or throws, without other effects. *)
Definition Exc (A : Type) : Type := JsError + A.

Definition throwE {A} (e : JsError) : Exc A := inl e.

#[global] Instance Exc_ret : MRet Exc := fun A x => inr x.
#[global] Instance Exc_bind : MBind Exc := fun A B f m =>
  match m with
  | inl e => inl e
  | inr x => f x
  end.

Definition showNullish (v : JsVal) : string :=
  match v with JNull => "null" | _ => "undefined" end.

(** [v.k] / [v[k]] on any value: reading a property of [null] or
    [undefined] throws a [TypeError]. *)
Definition member (v : JsVal) (k : string) : Exc JsVal :=
  match v with
  | JUndefined | JNull =>
      throwE (TypeError ("Cannot read properties of " +:+ showNullish v
                         +:+ " (reading '" +:+ k +:+ "')"))
  | _ => mret (prop v k)
  end.

(** [f] on each element with its index, in order, stopping at the
    first throw: [Array.prototype.forEach] and, collecting the results,
    [Array.prototype.map]. *)
Fixpoint forEachFrom {A} (f : A -> nat -> Exc unit) (index : nat) (l : list A)
  : Exc unit :=
  match l with
  | [] => mret tt
  | x :: rest => f x index ≫= fun _ => forEachFrom f (S index) rest
  end.

Definition forEach {A} (f : A -> nat -> Exc unit) (l : list A) : Exc unit :=
  forEachFrom f 0%nat l.

Fixpoint mapE {A B} (f : A -> Exc B) (l : list A) : Exc (list B) :=
  match l with
  | [] => mret []
  | x :: rest => y ← f x; ys ← mapE f rest; mret (y :: ys)
  end.

End Js.
Import Js.

(** ** lambda/utils/headers.js *)

Module Headers.

(** [getHeader(headers, name)]. [find] answers [undefined] when no key
    matches; the final test is on the truthiness of the key found. *)
Definition getHeader (headers : JsVal) (name : string) : JsVal :=
  if negb (truthy headers) || negb (typeof_object headers) then JNull
  else
    let lowerName := toLowerCase name in
    match find (fun k => String.eqb (toLowerCase k) lowerName)
               (Object_keys headers) with
    | Some key => if truthy (JStr key) then prop headers key else JNull
    | None => JNull
    end.

(** Two names that differ only in letter case: equal length, and
    position by position the same character or the two cases of one
    letter. *)
Inductive differ_only_in_case : string -> string -> Prop :=
| doc_nil : differ_only_in_case "" ""
| doc_same c s t :
    differ_only_in_case s t -> differ_only_in_case (String c s) (String c t)
| doc_up c s t :
    differ_only_in_case s t ->
    lower_char c <> c ->
    differ_only_in_case (String c s) (String (lower_char c) t)
| doc_down c s t :
    differ_only_in_case s t ->
    lower_char c <> c ->
    differ_only_in_case (String (lower_char c) s) (String c t).

End Headers.

(** ** lambda/handler.js: request validators *)

Module Handler.

(** The callback of [validateTokenizeByotRequest]'s [forEach]: the two
    sorted key lists are compared through their comma-joined renderings. *)
Definition checkByotRecord (record : JsVal) (index : nat) : Exc unit :=
  fields ← member record "fields";
  if negb (truthy fields) || negb (typeof_object fields) then
    throwE (Error ("records[" +:+ showNat index
                   +:+ "] must have 'fields' object with column values"))
  else
  tokens ← member record "tokens";
  if negb (truthy tokens) || negb (typeof_object tokens) then
    throwE (Error ("records[" +:+ showNat index
                   +:+ "] must have 'tokens' object with custom token values"))
  else if (length (Object_keys fields) =? 0)%nat then
    throwE (Error ("records[" +:+ showNat index +:+ "].fields cannot be empty"))
  else if (length (Object_keys tokens) =? 0)%nat then
    throwE (Error ("records[" +:+ showNat index +:+ "].tokens cannot be empty"))
  else
    let fieldKeys := sort (Object_keys fields) in
    let tokenKeys := sort (Object_keys tokens) in
    if negb (String.eqb (join "," fieldKeys) (join "," tokenKeys)) then
      throwE (Error ("records[" +:+ showNat index
                     +:+ "] fields and tokens must have matching column names"))
    else mret tt.

Definition validateTokenizeByotRequest (body : JsVal) : Exc unit :=
  records ← member body "records";
  match records with
  | JArr items =>
      if (length items =? 0)%nat then
        throwE (Error "records array cannot be empty")
      else forEach checkByotRecord items
  | _ => throwE (Error "Missing or invalid field: records (must be array)")
  end.

End Handler.

(** ** lambda/skyflow-client.js *)

Module Client.

(** *** The SDK boundary (package skyflow-node) *)

Inductive SdkCredentials :=
| ApiKey (apiKey : JsVal)
| CredentialsString (credentials : JsVal).

Record VaultConfig := mkVaultConfig {
  vc_vaultId : string;
  vc_clusterId : string;
  vc_env : string;
  vc_credentials : SdkCredentials }.

Inductive LogLevel := LogLevel_ERROR.

Record SkyflowConfig := mkSkyflowConfig {
  vaultConfigs : list VaultConfig;
  logLevel : LogLevel }.

(** A client handle, the result of [new Skyflow(config)]. Two handles
    built by two constructions differ in their serial number. *)
Record Skyflow := mkSkyflow { serial : nat; sk_config : SkyflowConfig }.

Inductive TokenMode := TokenMode_ENABLE.

(** [InsertOptions] and [DetokenizeOptions]: what the setters have set. *)
Record InsertOptions := mkInsertOptions {
  returnTokens : option bool;
  upsertColumn : option JsVal;
  continueOnError : option bool;
  tokenMode : option TokenMode;
  customTokens : option (list JsVal) }.

Definition new_InsertOptions : InsertOptions :=
  mkInsertOptions None None None None None.

Definition setReturnTokens (b : bool) (o : InsertOptions) : InsertOptions :=
  mkInsertOptions (Some b) (upsertColumn o) (continueOnError o) (tokenMode o)
                  (customTokens o).
Definition setUpsertColumn (c : JsVal) (o : InsertOptions) : InsertOptions :=
  mkInsertOptions (returnTokens o) (Some c) (continueOnError o) (tokenMode o)
                  (customTokens o).
Definition setContinueOnError (b : bool) (o : InsertOptions) : InsertOptions :=
  mkInsertOptions (returnTokens o) (upsertColumn o) (Some b) (tokenMode o)
                  (customTokens o).
Definition setTokenMode (m : TokenMode) (o : InsertOptions) : InsertOptions :=
  mkInsertOptions (returnTokens o) (upsertColumn o) (continueOnError o) (Some m)
                  (customTokens o).
Definition setTokens (t : list JsVal) (o : InsertOptions) : InsertOptions :=
  mkInsertOptions (returnTokens o) (upsertColumn o) (continueOnError o)
                  (tokenMode o) (Some t).

Record DetokenizeOptions := mkDetokenizeOptions {
  detokenizeContinueOnError : option bool }.

(** What is handed to [client.vault(vaultId)]: [insert(new
    InsertRequest(table, data), options)], [detokenize(new
    DetokenizeRequest(data), options)] or [query(new QueryRequest(sql))]. *)
Inductive SdkRequest :=
| Insert (table : string) (data : list JsVal) (options : InsertOptions)
| Detokenize (data : list JsVal) (options : DetokenizeOptions)
| Query (sql : string).

Record SdkCall := mkSdkCall {
  call_client : Skyflow;
  call_vaultId : string;
  call_request : SdkRequest }.

(** The response of a call that resolved. [resp_fields] is the member
    [insertedFields], [detokenizedFields] or [fields], according to the
    call; [None] is a member that is missing or [null]. *)
Record SdkResponse := mkSdkResponse {
  resp_fields : option (list JsVal);
  resp_errors : option (list JsVal) }.

(** The backend behind the SDK, over a state [W] of its own. The
    constructor may throw; a call resolves with a response or rejects. *)
Class Sdk (W : Type) := {
  sdk_new : SkyflowConfig -> W -> option JsError * W;
  sdk_send : SdkCall -> W -> Exc SdkResponse * W }.

(** [Array.prototype.includes] on strings. *)
Definition includes (l : list string) (s : string) : bool :=
  existsb (String.eqb s) l.

(** The four redaction modes, as [validateDetokenizeRequest] of
    handler.js lists them. *)
Definition validRedactionTypes : list string :=
  ["PLAIN_TEXT"; "MASKED"; "REDACTED"; "DEFAULT"].

(** Modelled from the spec: the enum [RedactionType] of skyflow-node,
    whose declaration is not among the sources. [RedactionType name] is
    the read [RedactionType[name]]: the enum has the four enumerated
    redaction modes as members, each a non-empty string, and reading any
    other name from it gives [undefined]. *)
Definition RedactionType (name : string) : JsVal :=
  if includes validRedactionTypes name then JStr name else JUndefined.

Definition RedactionType_PLAIN_TEXT : JsVal := RedactionType "PLAIN_TEXT".

(** *** The client object *)

Record OpBatching := mkOpBatching { batchSize : option Z }.

Record Batching := mkBatching {
  batching_tokenize : option OpBatching;
  batching_detokenize : option OpBatching }.

Record Config := mkConfig {
  config_credentials : JsVal;
  config_batching : option Batching }.

(** The fields the constructor sets once. *)
Record SkyflowClient := mkSkyflowClient {
  config : Config;
  credentials : JsVal;
  batching : Batching }.

Definition new_SkyflowClient (config : Config) : SkyflowClient :=
  mkSkyflowClient config (config_credentials config)
    (default (mkBatching None None) (config_batching config)).

(** What changes while the process lives: the cache [this.clients], the
    backend, and two logs kept for the proofs, of the constructions done
    and of the calls issued, oldest first. *)
Record St (W : Type) := mkSt {
  clients : gmap string Skyflow;
  constructed : list SkyflowConfig;
  sent : list SdkCall;
  backend : W }.
Arguments mkSt {W}.
Arguments clients {W}.
Arguments constructed {W}.
Arguments sent {W}.
Arguments backend {W}.

Definition initial {W} (w : W) : St W := mkSt ∅ [] [] w.

(** [destroy()]. *)
Definition destroy {W} (s : St W) : St W :=
  mkSt ∅ (constructed s) (sent s) (backend s).

(** Methods run in a state-and-exception monad. *)
Definition M (W A : Type) : Type := St W -> Exc A * St W.

#[global] Instance M_ret {W} : MRet (M W) := fun A x s => (inr x, s).
#[global] Instance M_bind {W} : MBind (M W) := fun A B f m s =>
  match m s with
  | (inl e, s') => (inl e, s')
  | (inr x, s') => f x s'
  end.

Definition throw {W A} (e : JsError) : M W A := fun s => (inl e, s).

(** [try { body } catch (error) { handler error }]: what [body] did to
    the state before it threw stays done. *)
Definition try_catch {W A} (body : M W A) (handler : JsError -> M W A) : M W A :=
  fun s =>
    match body s with
    | (inl e, s') => handler e s'
    | (inr x, s') => (inr x, s')
    end.

Definition liftE {W A} (c : Exc A) : M W A := fun s => (c, s).


(** [Array.prototype.slice(start, end)] on integer arguments. *)
Definition slice {A} (l : list A) (start final : Z) : list A :=
  let len := Z.of_nat (length l) in
  let k := if start <? 0 then Z.max (len + start) 0 else Z.min start len in
  let fin := if final <? 0 then Z.max (len + final) 0 else Z.min final len in
  take (Z.to_nat (fin - k)) (drop (Z.to_nat k) l).

(** The loop [for (let i = 0; i < items.length; i += batchSize)
    batches.push(items.slice(i, i + batchSize))], entered at [i] with
    [batches] collected so far. It need not end (a negative [batchSize]);
    [None] is a run that outlasts [fuel] iterations. *)
Fixpoint splitLoop {A} (fuel : nat) (items : list A) (batchSize i : Z)
  (batches : list (list A)) : option (list (list A)) :=
  match fuel with
  | O => None
  | S fuel' =>
      if i <? Z.of_nat (length items) then
        splitLoop fuel' items batchSize (i + batchSize)
                  (batches ++ [slice items i (i + batchSize)])
      else Some batches
  end.

(** [this.batching?.<op>?.batchSize || 25]. A configured size is an
    integer ([parseInt], JSON) or is missing, [null] or [NaN]: [None]. *)
Definition orDefault25 (configured : option Z) : Z :=
  match configured with
  | Some n => if n =? 0 then 25 else n
  | None => 25
  end.

(** What a batch call resolves with: [{ data, errors }], [errors] an
    array or [null]. *)
Record BatchResult := mkBatchResult {
  data : list JsVal;
  errors : option (list JsVal) }.

Section Methods.
Context {W : Type} {sdk : Sdk W}.

(** [new Skyflow(skyflowConfig)]. *)
Definition new_Skyflow (skyflowConfig : SkyflowConfig) : M W Skyflow := fun s =>
  match sdk_new skyflowConfig (backend s) with
  | (Some e, w) => (inl e, mkSt (clients s) (constructed s) (sent s) w)
  | (None, w) =>
      (inr (mkSkyflow (length (constructed s)) skyflowConfig),
       mkSt (clients s) (constructed s ++ [skyflowConfig]) (sent s) w)
  end.

(** [this.clients[clientKey]] and [this.clients[clientKey] = client]. *)
Definition readClient (clientKey : string) : M W (option Skyflow) := fun s =>
  (inr (clients s !! clientKey), s).

Definition storeClient (clientKey : string) (client : Skyflow) : M W unit :=
  fun s =>
    (inr tt, mkSt (<[clientKey := client]> (clients s)) (constructed s) (sent s)
                  (backend s)).

(** [await client.vault(vaultId).<method>(request, options)]. *)
Definition send (client : Skyflow) (vaultId : string) (request : SdkRequest)
  : M W SdkResponse := fun s =>
  let call := mkSdkCall client vaultId request in
  let '(r, w) := sdk_send call (backend s) in
  (r, mkSt (clients s) (constructed s) (sent s ++ [call]) w).

Definition validEnvironments : list string := ["SANDBOX"; "PROD"].

Definition clientKeyOf (clusterId vaultId env : string) : string :=
  clusterId +:+ ":" +:+ vaultId +:+ ":" +:+ env.

(** [_getClient(clusterId, vaultId, env = 'PROD')]. A cached handle is
    an object, hence truthy: the cache misses exactly on a key that was
    never stored. The constructor has read [credentials.apiKey] already,
    so the read here does not throw. *)
Definition _getClient (this : SkyflowClient) (clusterId vaultId : string)
  (env : option string) : M W Skyflow :=
  let env := default "PROD" env in
  if negb (includes validEnvironments env) then
    throw (Error ("Invalid environment: " +:+ env +:+ ". Must be one of: "
                  +:+ join ", " validEnvironments))
  else
    let clientKey := clientKeyOf clusterId vaultId env in
    cached ← readClient clientKey;
    match cached with
    | Some client => mret client
    | None =>
        let apiKey := prop (credentials this) "apiKey" in
        let credentials :=
          if truthy apiKey then ApiKey apiKey
          else CredentialsString (credentials this) in
        let vaultConfig := mkVaultConfig vaultId clusterId env credentials in
        let skyflowConfig := mkSkyflowConfig [vaultConfig] LogLevel_ERROR in
        client ← new_Skyflow skyflowConfig;
        _ ← storeClient clientKey client;
        mret client
    end.

(** [_tokenizeBatch(clusterId, vaultId, table, records, options, env)]. *)
Definition _tokenizeBatch (this : SkyflowClient) (clusterId vaultId table : string)
  (records : list JsObject) (options : JsObject) (env : option string)
  : M W BatchResult :=
  client ← _getClient this clusterId vaultId env;
  let insertOptions := setReturnTokens true new_InsertOptions in
  let upsert := prop (JObj options) "upsert" in
  let insertOptions :=
    if truthy upsert then
      match upsert with
      | JStr _ => setUpsertColumn upsert insertOptions
      | JArr (first :: _) => setUpsertColumn first insertOptions
      | _ => insertOptions
      end
    else insertOptions in
  let insertOptions := setContinueOnError false insertOptions in
  try_catch
    (response ← send client vaultId (Insert table (map JObj records) insertOptions);
     mret (mkBatchResult (default [] (resp_fields response))
                         (resp_errors response)))
    (fun error => throw (Error ("Tokenization failed: " +:+ err_message error))).

(** [_tokenizeByotBatch(clusterId, vaultId, table, records, env)]. *)
Definition _tokenizeByotBatch (this : SkyflowClient)
  (clusterId vaultId table : string) (records : list JsObject)
  (env : option string) : M W BatchResult :=
  client ← _getClient this clusterId vaultId env;
  let insertData := map (fun record => prop (JObj record) "fields") records in
  let tokens := map (fun record => prop (JObj record) "tokens") records in
  let insertOptions := setTokenMode TokenMode_ENABLE new_InsertOptions in
  let insertOptions := setTokens tokens insertOptions in
  let insertOptions := setContinueOnError false insertOptions in
  try_catch
    (response ← send client vaultId (Insert table insertData insertOptions);
     mret (mkBatchResult (default [] (resp_fields response))
                         (resp_errors response)))
    (fun error => throw (Error ("Tokenize-BYOT failed: " +:+ err_message error))).

(** The object built for one token in [_detokenizeBatch]. *)
Definition detokenizeDatum (redactionType token : JsVal) : JsObject :=
  let data := [("token", token)] in
  if truthy redactionType then
    let mapped := RedactionType (toString redactionType) in
    data ++ [("redactionType",
              if truthy mapped then mapped else RedactionType_PLAIN_TEXT)]
  else data.

(** The object returned for one detokenized record. *)
Definition tokenValue (record : JsVal) : Exc JsVal :=
  token ← member record "token";
  value ← member record "value";
  mret (JObj [("token", token); ("value", value)]).

(** [_detokenizeBatch(clusterId, vaultId, tokens, options, env)]. *)
Definition _detokenizeBatch (this : SkyflowClient) (clusterId vaultId : string)
  (tokens : list JsVal) (options : JsObject) (env : option string)
  : M W BatchResult :=
  let redactionType := prop (JObj options) "redactionType" in
  client ← _getClient this clusterId vaultId env;
  let detokenizeData :=
    map (fun token => JObj (detokenizeDatum redactionType token)) tokens in
  let detokenizeOptions := mkDetokenizeOptions (Some true) in
  try_catch
    (response ← send client vaultId (Detokenize detokenizeData detokenizeOptions);
     data ← liftE (mapE tokenValue (default [] (resp_fields response)));
     mret (mkBatchResult data (resp_errors response)))
    (fun error => throw (Error ("Detokenization failed: " +:+ err_message error))).

(** The loop over [batches] shared, word for word, by [tokenize],
    [tokenizeByot] and [detokenize], entered with the [results] and
    [errors] pushed so far. The [catch] logs and rethrows. *)
Fixpoint processBatches {T} (batchCall : list T -> M W BatchResult)
  (batches : list (list T)) (results errors : list JsVal) : M W BatchResult :=
  match batches with
  | [] =>
      mret (mkBatchResult results
              (if (0 <? length errors)%nat then Some errors else None))
  | batch :: rest =>
      batchResult ← try_catch (batchCall batch) (fun error => throw error);
      let results := results ++ data batchResult in
      let errors :=
        match Client.errors batchResult with
        | Some batchErrors => errors ++ batchErrors
        | None => errors
        end in
      processBatches batchCall rest results errors
  end.

(** [tokenize(clusterId, vaultId, table, records, options = {}, env =
    'PROD')]. [None]: the splitting loop outlasts [fuel]. *)
Definition tokenize (fuel : nat) (this : SkyflowClient)
  (clusterId vaultId table : string) (records : list JsObject)
  (options : JsObject) (env : option string) : option (M W BatchResult) :=
  let env := Some (default "PROD" env) in
  let batchSize :=
    orDefault25 (batching_tokenize (batching this) ≫= Client.batchSize) in
  if Z.of_nat (length records) <=? batchSize then
    Some (_tokenizeBatch this clusterId vaultId table records options env)
  else
    batches ← splitLoop fuel records batchSize 0 [];
    Some (processBatches
            (fun batch => _tokenizeBatch this clusterId vaultId table batch options env)
            batches [] []).

(** [detokenize(clusterId, vaultId, tokens, options = {}, env = 'PROD')]. *)
Definition detokenize (fuel : nat) (this : SkyflowClient)
  (clusterId vaultId : string) (tokens : list JsVal) (options : JsObject)
  (env : option string) : option (M W BatchResult) :=
  let env := Some (default "PROD" env) in
  let batchSize :=
    orDefault25 (batching_detokenize (batching this) ≫= Client.batchSize) in
  if Z.of_nat (length tokens) <=? batchSize then
    Some (_detokenizeBatch this clusterId vaultId tokens options env)
  else
    batches ← splitLoop fuel tokens batchSize 0 [];
    Some (processBatches
            (fun batch => _detokenizeBatch this clusterId vaultId batch options env)
            batches [] []).

(** [tokenizeByot(clusterId, vaultId, table, records, env = 'PROD')]. *)
Definition tokenizeByot (fuel : nat) (this : SkyflowClient)
  (clusterId vaultId table : string) (records : list JsObject)
  (env : option string) : option (M W BatchResult) :=
  let env := Some (default "PROD" env) in
  let batchSize :=
    orDefault25 (batching_tokenize (batching this) ≫= Client.batchSize) in
  if Z.of_nat (length records) <=? batchSize then
    Some (_tokenizeByotBatch this clusterId vaultId table records env)
  else
    batches ← splitLoop fuel records batchSize 0 [];
    Some (processBatches
            (fun batch => _tokenizeByotBatch this clusterId vaultId table batch env)
            batches [] []).

(** [const { tokenizedData, ...cleanRecord } = record]. *)
Definition cleanRecord (record : JsVal) : Exc JsVal :=
  match record with
  | JUndefined | JNull =>
      throwE (TypeError ("Cannot destructure 'record' as it is "
                         +:+ showNullish record +:+ "."))
  | _ =>
      mret (JObj (List.filter
                    (fun kv => negb (String.eqb kv.1 "tokenizedData"))
                    (entries record)))
  end.

(** [query(clusterId, vaultId, sqlQuery, env = 'PROD')]. *)
Definition query (this : SkyflowClient) (clusterId vaultId sqlQuery : string)
  (env : option string) : M W BatchResult :=
  client ← _getClient this clusterId vaultId env;
  try_catch
    (response ← send client vaultId (Query sqlQuery);
     cleanedResults ← liftE (mapE cleanRecord (default [] (resp_fields response)));
     mret (mkBatchResult cleanedResults (resp_errors response)))
    (fun error => throw (Error ("Query failed: " +:+ err_message error))).

End Methods.

End Client.

(** ** lambda/snowflake-handler.js: the row-indexed transport *)

Module Snowflake.
Import Client.

(** What [extractHeaders] reads from the request; a header is a string,
    or [null] ([None]) when it is absent. The main handler has checked
    [clusterId] and [vaultId] before it routes. *)
Record RequestConfig := mkRequestConfig {
  operation : option string;
  clusterId : string;
  vaultId : string;
  table : option string;
  columnName : option string }.

(** [!header]. *)
Definition missing (header : option string) : bool :=
  match header with
  | Some h => String.eqb h EmptyString
  | None => true
  end.

(** [rowNumbers.map((rowNum, index) => [rowNum, outputs[index]])]. *)
Definition rezip (rowNumbers outputs : list JsVal) : list JsVal :=
  imap (fun index rowNum =>
          JArr [rowNum; default JUndefined (outputs !! index)]) rowNumbers.

Section Handlers.
Context {W : Type} {sdk : Sdk W}.

(** [handleTokenize(rows, requestConfig, client)]. *)
Definition handleTokenize (fuel : nat) (rows : list JsVal)
  (requestConfig : RequestConfig) (client : SkyflowClient)
  : option (M W (list JsVal)) :=
  if missing (table requestConfig) then
    Some (throw (Error
      "Missing required header: X-Skyflow-Table (required for tokenize)"))
  else if missing (columnName requestConfig) then
    Some (throw (Error
      "Missing required header: X-Skyflow-Column-Name (required for tokenize)"))
  else
    let table := default EmptyString (table requestConfig) in
    let columnName := default EmptyString (columnName requestConfig) in
    match mapE (fun row => member row "0") rows with
    | inl e => Some (throw e)
    | inr rowNumbers =>
    match mapE (fun row => member row "1") rows with
    | inl e => Some (throw e)
    | inr values =>
        let records := map (fun val => [(columnName, val)]) values in
        call ← tokenize fuel client (clusterId requestConfig)
                 (vaultId requestConfig) table records [] None;
        Some (response ← call;
              tokens ← liftE (mapE (fun record => member record columnName)
                                   (data response));
              mret (rezip rowNumbers tokens))
    end end.

(** [handleDetokenize(rows, requestConfig, client)]. *)
Definition handleDetokenize (fuel : nat) (rows : list JsVal)
  (requestConfig : RequestConfig) (client : SkyflowClient)
  : option (M W (list JsVal)) :=
  match mapE (fun row => member row "0") rows with
  | inl e => Some (throw e)
  | inr rowNumbers =>
  match mapE (fun row => member row "1") rows with
  | inl e => Some (throw e)
  | inr tokens =>
      call ← detokenize fuel client (clusterId requestConfig)
               (vaultId requestConfig) tokens [] None;
      Some (response ← call;
            values ← liftE (mapE (fun record => member record "value")
                                 (data response));
            mret (rezip rowNumbers values))
  end end.

End Handlers.

End Snowflake.

(** ** Vocabulary of the statements *)

Module Spec.
Import Client.

(** A column name without a comma. *)
Fixpoint comma_free (s : string) : bool :=
  match s with
  | EmptyString => true
  | String c rest => negb (Ascii.eqb c ","%char) && comma_free rest
  end.

(** [ceil(n / b)], for [b > 0]. *)
Definition ceil_div (n b : nat) : nat := ((n + b - 1) / b)%nat.

(** The consecutive chunks of at most [b] items of [l], in input
    order: chunk [k] holds the items at positions [k * b] to
    [k * b + b - 1]. *)
Definition chunk_at {A} (b : nat) (l : list A) (k : nat) : list A :=
  take b (drop (k * b) l).

Definition chunks {A} (b : nat) (l : list A) : list (list A) :=
  map (chunk_at b l) (seq 0 (ceil_div (length l) b)).

(** The soft row-level errors of a batch result, [null] read as none. *)
Definition errorsOf (r : BatchResult) : list JsVal := default [] (errors r).

(** The batch results put together in order: the data lists
    concatenated, and the errors lists concatenated, an empty
    concatenation being reported as [null]. *)
Definition assemble (rs : list BatchResult) : BatchResult :=
  let es := concat (map errorsOf rs) in
  mkBatchResult (concat (map data rs))
                (match es with [] => None | _ => Some es end).

(** The three batched operations of the client, with the arguments
    that are theirs alone, and the type of the items of each: record
    objects for the two tokenizations, tokens for the detokenization. *)
Inductive BatchedOp : Type :=
| OpTokenize (table : string) (options : JsObject)
| OpTokenizeByot (table : string)
| OpDetokenize (options : JsObject).

Definition itemT (op : BatchedOp) : Type :=
  match op with
  | OpDetokenize _ => JsVal
  | _ => JsObject
  end.

(** The configured batch size an operation reads. *)
Definition configuredBatchSize (op : BatchedOp) (this : SkyflowClient)
  : option Z :=
  match op with
  | OpDetokenize _ => batching_detokenize (batching this) ≫= batchSize
  | _ => batching_tokenize (batching this) ≫= batchSize
  end.

(** The request an operation builds for one batch. *)
Definition requestOf (op : BatchedOp) : list (itemT op) -> SdkRequest :=
  match op with
  | OpTokenize table options => fun batch =>
      let o := setReturnTokens true new_InsertOptions in
      let upsert := prop (JObj options) "upsert" in
      let o :=
        if truthy upsert then
          match upsert with
          | JStr _ => setUpsertColumn upsert o
          | JArr (first :: _) => setUpsertColumn first o
          | _ => o
          end
        else o in
      Insert table (map JObj batch) (setContinueOnError false o)
  | OpTokenizeByot table => fun batch =>
      Insert table (map (fun record => prop (JObj record) "fields") batch)
        (setContinueOnError false
           (setTokens (map (fun record => prop (JObj record) "tokens") batch)
              (setTokenMode TokenMode_ENABLE new_InsertOptions)))
  | OpDetokenize options => fun batch =>
      Detokenize
        (map (fun token =>
                JObj (detokenizeDatum (prop (JObj options) "redactionType") token))
             batch)
        (mkDetokenizeOptions (Some true))
  end.

Section Ops.
Context {W : Type} {sdk : Sdk W}.

(** The per-batch call of an operation, as its dispatching method makes
    it, and the dispatching method itself. *)
Definition batchCall (op : BatchedOp) (this : SkyflowClient)
  (clusterId vaultId : string) (env : option string)
  : list (itemT op) -> M W BatchResult :=
  let env := Some (default "PROD" env) in
  match op with
  | OpTokenize table options => fun batch =>
      _tokenizeBatch this clusterId vaultId table batch options env
  | OpTokenizeByot table => fun batch =>
      _tokenizeByotBatch this clusterId vaultId table batch env
  | OpDetokenize options => fun batch =>
      _detokenizeBatch this clusterId vaultId batch options env
  end.

Definition run (op : BatchedOp) (fuel : nat) (this : SkyflowClient)
  (clusterId vaultId : string) (env : option string)
  : list (itemT op) -> option (M W BatchResult) :=
  match op with
  | OpTokenize table options => fun items =>
      tokenize fuel this clusterId vaultId table items options env
  | OpTokenizeByot table => fun items =>
      tokenizeByot fuel this clusterId vaultId table items env
  | OpDetokenize options => fun items =>
      detokenize fuel this clusterId vaultId items options env
  end.

(** Resolutions of client handles in a row, outcomes dropped. *)
Fixpoint resolveAll (this : SkyflowClient)
  (requests : list (string * string * option string)) (s : St W) : St W :=
  match requests with
  | [] => s
  | (clusterId, vaultId, env) :: rest =>
      resolveAll this rest (_getClient this clusterId vaultId env s).2
  end.

End Ops.

(** The (cluster, vault, environment) triple of a constructed handle. *)
Definition tripleOf (c : SkyflowConfig) : list (string * string * string) :=
  map (fun v => (vc_clusterId v, vc_vaultId v, vc_env v)) (vaultConfigs c).

(** Every triple whose handle was constructed has its key in the cache,
    and no triple was constructed twice. *)
Definition cache_consistent {W} (s : St W) : Prop :=
  NoDup (concat (map tripleOf (constructed s)))
  /\ forall c v e, In (c, v, e) (concat (map tripleOf (constructed s))) ->
       is_Some (clients s !! clientKeyOf c v e).

(** A stub backend for examples. Its state is a script of answers, one
    per call; it rejects once the script is used up. Its constructor
    never throws. *)
Definition rejected : JsError := mkJsError SkyflowErrorC "rejected".

#[global] Instance scripted : Sdk (list (Exc SdkResponse)) := {
  sdk_new _ w := (None, w);
  sdk_send _ w :=
    match w with
    | [] => (inl rejected, [])
    | answer :: rest => (answer, rest)
    end }.

(** A stub backend without state that echoes: an insert answers with the
    data it was given, a detokenize with each token as its own value,
    a query with no row. *)
Definition echo (request : SdkRequest) : SdkResponse :=
  match request with
  | Insert _ data _ => mkSdkResponse (Some data) None
  | Detokenize data _ =>
      mkSdkResponse
        (Some (map (fun d => JObj [("token", prop d "token");
                                   ("value", prop d "token")]) data))
        None
  | Query _ => mkSdkResponse (Some []) None
  end.

#[global] Instance echoing : Sdk unit := {
  sdk_new _ w := (None, w);
  sdk_send call w := (inr (echo (call_request call)), w) }.

End Spec.

(** ** lambda/utils/headers.js: the other helpers *)

Module HeaderUtils.
Import Headers.








End HeaderUtils.

(** ** lambda/handler.js: the other validators *)

Module Validators.
Import Client.

(** [record === null]. *)
Definition is_null (v : JsVal) : bool :=
  match v with JNull => true | _ => false end.

(** The callback of [validateTokenizeRequest]'s [forEach]. *)
Definition checkRecord (record : JsVal) (index : nat) : Exc unit :=
  if negb (typeof_object record) || is_null record then
    throwE (Error ("records[" +:+ showNat index
                   +:+ "] must be an object with column names as keys"))
  else if (length (Object_keys record) =? 0)%nat then
    throwE (Error ("records[" +:+ showNat index
                   +:+ "] cannot be empty - must contain at least one column"))
  else mret tt.

(** [validateTokenizeRequest(body)]. An array is truthy, so the first
    test fails exactly on a [records] that is not an array. *)
Definition validateTokenizeRequest (body : JsVal) : Exc unit :=
  records ← member body "records";
  match records with
  | JArr items =>
      if (length items =? 0)%nat then
        throwE (Error "records array cannot be empty")
      else forEach checkRecord items
  | _ => throwE (Error "Missing or invalid field: records (must be array)")
  end.

(** [validRedactionTypes.includes(v)]: strict equality with one of the
    four strings. *)
Definition isValidRedactionType (v : JsVal) : bool :=
  match v with
  | JStr r => includes validRedactionTypes r
  | _ => false
  end.

(** [validateDetokenizeRequest(body)]. *)
Definition validateDetokenizeRequest (body : JsVal) : Exc unit :=
  tokens ← member body "tokens";
  match tokens with
  | JArr items =>
      if (length items =? 0)%nat then
        throwE (Error "tokens array cannot be empty")
      else
        let options := prop body "options" in
        if truthy options && truthy (prop options "redactionType") then
          if negb (isValidRedactionType (prop options "redactionType")) then
            throwE (Error ("Invalid redactionType: "
                           +:+ toString (prop options "redactionType")
                           +:+ ". Must be one of: "
                           +:+ join ", " validRedactionTypes
                           +:+ ", or omit for governance-controlled redaction"))
          else mret tt
        else mret tt
  | _ => throwE (Error "Missing or invalid field: tokens (must be array)")
  end.

(** [validateQueryRequest(body)]: [!body.query || typeof body.query !==
    'string'] fails exactly on a non-empty string. *)
Definition validateQueryRequest (body : JsVal) : Exc unit :=
  query ← member body "query";
  if negb (truthy query)
     || negb (match query with JStr _ => true | _ => false end) then
    throwE (Error "Missing or invalid field: query (must be string)")
  else mret tt.

End Validators.

(** ** Vocabulary of the further statements *)

Module Extra.
Import Client Spec HeaderUtils.

(** The first entry, in enumeration order, whose key lower-cases to
    [lowerName]. *)
Definition firstMatch (lowerName : string) (props : JsObject)
  : option (string * JsVal) :=
  find (fun kv => String.eqb (toLowerCase kv.1) lowerName) props.


(** A string without the character [ch]. *)
Fixpoint free_of (ch : Ascii.ascii) (s : string) : bool :=
  match s with
  | EmptyString => true
  | String c rest => negb (Ascii.eqb c ch) && free_of ch rest
  end.

(** An identifier without a colon. *)
Definition colon_free (s : string) : bool := free_of ":"%char s.

(** How often [ch] occurs in a string. *)
Fixpoint count_of (ch : Ascii.ascii) (s : string) : nat :=
  match s with
  | EmptyString => 0%nat
  | String c rest =>
      ((if Ascii.eqb c ch then 1 else 0) + count_of ch rest)%nat
  end.

(** Every cached handle was built by a construction that is in the
    log. *)
Definition serials_bounded {W} (s : St W) : Prop :=
  forall k h, clients s !! k = Some h ->
              (serial h < length (constructed s))%nat.

(** Under the key of a colon-free triple sits a handle configured for
    that triple. *)
Definition cache_faithful {W} (s : St W) : Prop :=
  forall c v e h,
    colon_free c = true -> colon_free v = true -> colon_free e = true ->
    clients s !! clientKeyOf c v e = Some h ->
    tripleOf (sk_config h) = [(c, v, e)].

(** The prefix a batch method puts before the message of an error it
    caught. *)
Definition errorPrefix (op : BatchedOp) : string :=
  match op with
  | OpTokenize _ _ => "Tokenization failed: "
  | OpTokenizeByot _ => "Tokenize-BYOT failed: "
  | OpDetokenize _ => "Detokenization failed: "
  end.

(** The list a request carries, one element per item. *)
Definition requestData (request : SdkRequest) : list JsVal :=
  match request with
  | Insert _ data _ => data
  | Detokenize data _ => data
  | Query _ => []
  end.

(** What a batch method makes of one record of a response: the
    detokenization keeps its token and its value, the tokenizations
    keep the record. *)
Definition returned (op : BatchedOp) (record : JsVal) : JsVal :=
  match op with
  | OpDetokenize _ =>
      JObj [("token", prop record "token"); ("value", prop record "value")]
  | _ => record
  end.

(** The result over a backend that answers each element of a request
    with [answer] of it and reports no error: the answers to the
    elements of the request for the whole list. *)
Definition answered (op : BatchedOp) (answer : JsVal -> JsVal)
  (items : list (itemT op)) : BatchResult :=
  mkBatchResult
    (map (fun d => returned op (answer d)) (requestData (requestOf op items)))
    None.

End Extra.

(** * Properties *)

(** ** Header lookup *)

Section HeaderFacts.
Import Headers.

Lemma lower_char_idem c : lower_char (lower_char c) = lower_char c.
Proof. destruct c as [[] [] [] [] [] [] [] []]; reflexivity. Qed.

Lemma differ_only_in_case_lower n1 n2 :
  differ_only_in_case n1 n2 -> toLowerCase n1 = toLowerCase n2.
Proof.
  induction 1 as [|c s t _ IH|c s t _ IH Hc|c s t _ IH Hc]; simpl.
  - reflexivity.
  - by rewrite IH.
  - by rewrite IH, lower_char_idem.
  - by rewrite IH, lower_char_idem.
Qed.

Lemma toLowerCase_empty s : toLowerCase s = EmptyString -> s = EmptyString.
Proof. destruct s; [reflexivity | discriminate]. Qed.

(** The lookup depends on the name only through its lower-casing: names
    that differ only in letter case get the same answer. *)
Lemma getHeader_case_insensitive headers n1 n2 :
  differ_only_in_case n1 n2 -> getHeader headers n1 = getHeader headers n2.
Proof.
  intros H. unfold getHeader.
  by rewrite (differ_only_in_case_lower _ _ H).
Qed.

(** [null] when [headers] is falsy or not an object. *)
Lemma getHeader_not_object headers name :
  truthy headers = false \/ typeof_object headers = false ->
  getHeader headers name = JNull.
Proof. unfold getHeader. intros [-> | ->]; simpl; by rewrite ?orb_true_r. Qed.

(** [null] when no key matches case-insensitively. *)
Lemma getHeader_no_match headers name :
  (forall k, In k (Object_keys headers) -> toLowerCase k <> toLowerCase name) ->
  getHeader headers name = JNull.
Proof.
  intros Hno. unfold getHeader.
  destruct (negb (truthy headers) || negb (typeof_object headers)); [done|].
  destruct (find _ _) as [key|] eqn:Hfind; [|done].
  apply find_some in Hfind as [Hin Heq].
  apply String.eqb_eq in Heq. by destruct (Hno key Hin).
Qed.

(** The value of a matching key, when one exists and the name is not
    the empty string. *)
Lemma getHeader_found headers name :
  truthy headers = true -> typeof_object headers = true ->
  name <> EmptyString ->
  (exists k, In k (Object_keys headers) /\ toLowerCase k = toLowerCase name) ->
  exists key, In key (Object_keys headers)
              /\ toLowerCase key = toLowerCase name
              /\ getHeader headers name = prop headers key.
Proof.
  intros Ht Ho Hname (k & Hin & Hk). unfold getHeader.
  rewrite Ht, Ho. simpl.
  destruct (find _ _) as [key|] eqn:Hfind.
  - apply find_some in Hfind as [Hin' Heq]. apply String.eqb_eq in Heq.
    exists key. repeat split; try done.
    destruct (String.eqb key EmptyString) eqn:Hempty; [|done].
    apply String.eqb_eq in Hempty. subst key. simpl in Heq.
    symmetry in Heq. by apply toLowerCase_empty in Heq.
  - eapply find_none in Hfind; [|exact Hin].
    apply String.eqb_neq in Hfind. done.
Qed.


End HeaderFacts.

(** ** Validation of custom-token records *)

Section ValidatorFacts.
Import Handler Spec.

Lemma forEachFrom_ok {A} (f : A -> nat -> Exc unit) l index :
  forEachFrom f index l = inr tt <->
  forall j x, l !! j = Some x -> f x (index + j)%nat = inr tt.
Proof.
  revert index. induction l as [|y l IH]; intros index; simpl.
  - split; [intros _ j x Hj; by destruct j | done].
  - unfold mbind, Exc_bind. split.
    + destruct (f y index) as [e|[]] eqn:Hy; [done|].
      intros Hrest [|j] x Hj; simpl in Hj.
      * injection Hj as <-. by rewrite Nat.add_0_r.
      * rewrite Nat.add_succ_r. by apply (IH (S index)).
    + intros Hall. pose proof (Hall 0%nat y eq_refl) as Hy.
      rewrite Nat.add_0_r in Hy. rewrite Hy. apply IH.
      intros j x Hj. specialize (Hall (S j) x Hj).
      by rewrite Nat.add_succ_r in Hall.
Qed.

Lemma sort_insert_Forall (P : string -> Prop) x l :
  P x -> Forall P l -> Forall P (sort_insert x l).
Proof.
  intros Hx. induction 1 as [|y l Hy Hl IH]; simpl.
  - by constructor.
  - destruct (String.leb x y); repeat constructor; done.
Qed.

Lemma sort_Forall (P : string -> Prop) l : Forall P l -> Forall P (sort l).
Proof.
  induction 1 as [|x l Hx Hl IH]; simpl; [constructor|].
  by apply sort_insert_Forall.
Qed.

Lemma sort_insert_length x l : length (sort_insert x l) = S (length l).
Proof.
  induction l as [|y l IH]; simpl; [done|].
  destruct (String.leb x y); simpl; by rewrite ?IH.
Qed.

Lemma sort_length l : length (sort l) = length l.
Proof.
  induction l as [|x l IH]; simpl; [done|]. by rewrite sort_insert_length, IH.
Qed.

Lemma append_comma_inj x y r1 r2 :
  comma_free x = true -> comma_free y = true ->
  x +:+ "," +:+ r1 = y +:+ "," +:+ r2 -> x = y /\ r1 = r2.
Proof.
  revert y. induction x as [|c x IH]; intros [|d y]; simpl; intros Hx Hy Heq.
  - by injection Heq.
  - injection Heq as <- _. by rewrite Ascii.eqb_refl in Hy.
  - injection Heq as -> _. by rewrite Ascii.eqb_refl in Hx.
  - injection Heq as -> Heq.
    apply andb_true_iff in Hx as [_ Hx]. apply andb_true_iff in Hy as [_ Hy].
    destruct (IH y Hx Hy Heq) as [-> ->]. done.
Qed.

Lemma comma_free_append x r : comma_free (x +:+ "," +:+ r) = false.
Proof.
  induction x as [|c x IH]; simpl; [done|]. by rewrite IH, andb_false_r.
Qed.

Lemma join_cons2 sep x y l :
  join sep (x :: y :: l) = x +:+ sep +:+ join sep (y :: l).
Proof. reflexivity. Qed.

(** On non-empty lists of comma-free names, [join(',')] is injective. *)
Lemma join_comma_inj l1 l2 :
  l1 <> [] -> l2 <> [] ->
  Forall (fun k => comma_free k = true) l1 ->
  Forall (fun k => comma_free k = true) l2 ->
  join "," l1 = join "," l2 -> l1 = l2.
Proof.
  revert l2.
  induction l1 as [|x [|x' l1] IH]; intros [|y [|y' l2]] H1 H2 F1 F2 Heq;
    try done; rewrite ?join_cons2 in Heq.
  - unfold join in Heq. simpl in Heq. by subst.
  - apply Forall_inv in F1. change (join "," [x]) with x in Heq. subst x.
    by rewrite comma_free_append in F1.
  - apply Forall_inv in F2. change (join "," [y]) with y in Heq. subst y.
    by rewrite comma_free_append in F2.
  - pose proof (Forall_inv F1) as Hx. pose proof (Forall_inv F2) as Hy.
    destruct (append_comma_inj _ _ _ _ Hx Hy Heq) as [-> Hrest].
    f_equal. apply IH; try done.
    + by apply Forall_inv_tail in F1.
    + by apply Forall_inv_tail in F2.
Qed.

(** What a record that passes the check satisfies. *)
Lemma checkByotRecord_ok record index :
  checkByotRecord record index = inr tt ->
  let fields := prop record "fields" in
  let tokens := prop record "tokens" in
  truthy fields = true /\ typeof_object fields = true
  /\ truthy tokens = true /\ typeof_object tokens = true
  /\ Object_keys fields <> [] /\ Object_keys tokens <> []
  /\ join "," (sort (Object_keys fields)) = join "," (sort (Object_keys tokens)).
Proof.
  unfold checkByotRecord, member.
  destruct record; try discriminate; simpl;
    repeat match goal with
    | |- context [truthy ?v] => destruct (truthy v) eqn:?; simpl; try discriminate
    | |- context [typeof_object ?v] =>
        destruct (typeof_object v) eqn:?; simpl; try discriminate
    | |- context [(length ?l =? 0)%nat] =>
        destruct (Nat.eqb_spec (length l) 0); simpl; try discriminate
    | |- context [String.eqb ?a ?b] =>
        destruct (String.eqb_spec a b); simpl; try discriminate
    end;
    intros _; repeat split; try done;
    intros Hnil; rewrite Hnil in *; simpl in *; done.
Qed.

(** Validation succeeds only on a non-empty array of records whose
    [fields] and [tokens] are non-empty objects with equal joined sorted
    key lists; where no key holds a comma, the sorted key lists
    themselves are equal. *)
Lemma validateTokenizeByotRequest_ok body :
  validateTokenizeByotRequest body = inr tt ->
  exists items,
    prop body "records" = JArr items /\ items <> [] /\
    forall record, In record items ->
      let fields := prop record "fields" in
      let tokens := prop record "tokens" in
      Object_keys fields <> [] /\ Object_keys tokens <> []
      /\ join "," (sort (Object_keys fields)) = join "," (sort (Object_keys tokens))
      /\ (Forall (fun k => comma_free k = true) (Object_keys fields) ->
          Forall (fun k => comma_free k = true) (Object_keys tokens) ->
          sort (Object_keys fields) = sort (Object_keys tokens)).
Proof.
  unfold validateTokenizeByotRequest, member.
  destruct body as [| |b|n|str|arr|props]; try discriminate; simpl;
    (destruct (prop _ "records") as [| | | | |recs|] eqn:Hrec; try discriminate;
     destruct (Nat.eqb_spec (length recs) 0) as [|Hlen]; [discriminate|];
     intros Hall; exists recs; split; [done|]; split;
       [by destruct recs|];
     intros record Hin; apply list_elem_of_In in Hin;
     apply list_elem_of_lookup in Hin as [j Hj];
     unfold forEach in Hall;
     pose proof (proj1 (forEachFrom_ok _ _ _) Hall j record Hj) as Hok;
     apply checkByotRecord_ok in Hok;
     destruct Hok as (_ & _ & _ & _ & Hf & Ht & Hjoin);
     repeat split; try done;
     intros Ff Ft; apply join_comma_inj; try done;
       [ intros Hnil; apply (f_equal length) in Hnil;
         rewrite sort_length in Hnil; by destruct (Object_keys (prop record "fields"))
       | intros Hnil; apply (f_equal length) in Hnil;
         rewrite sort_length in Hnil; by destruct (Object_keys (prop record "tokens"))
       | by apply sort_Forall | by apply sort_Forall ]).
Qed.

(** C6 (defect). A record whose [fields] have the single column [a,b]
    and whose [tokens] have the two columns [a] and [b] passes
    validation, although its two sorted key lists differ: the lists are
    compared after [join(',')], which renders both as the same string. *)
Theorem validateTokenizeByotRequest_comma_keys :
  let fields := JObj [("a,b", JStr "x")] in
  let tokens := JObj [("a", JStr "t1"); ("b", JStr "t2")] in
  let body := JObj [("records", JArr [JObj [("fields", fields); ("tokens", tokens)]])] in
  sort (Object_keys fields) <> sort (Object_keys tokens)
  /\ validateTokenizeByotRequest body = inr tt.
Proof. split; [discriminate | reflexivity]. Qed.

End ValidatorFacts.

(** ** The client cache *)

Section CacheFacts.
Import Client Spec.
Context {W : Type} {sdk : Sdk W}.

Implicit Types (s : St W) (this : SkyflowClient).

(** An environment other than the two recognized ones: the resolution
    throws and leaves the state as it was. *)
Lemma getClient_invalid this clusterId vaultId env s :
  includes validEnvironments (default "PROD" env) = false ->
  exists msg,
    _getClient this clusterId vaultId env s = (inl (Error msg), s).
Proof.
  intros Hinv. unfold _getClient. rewrite Hinv. simpl. eauto.
Qed.

(** A cache hit returns the cached handle and changes nothing. *)
Lemma getClient_hit this clusterId vaultId env s h :
  includes validEnvironments (default "PROD" env) = true ->
  clients s !! clientKeyOf clusterId vaultId (default "PROD" env) = Some h ->
  _getClient this clusterId vaultId env s = (inr h, s).
Proof.
  intros Hval Hhit. unfold _getClient. rewrite Hval. simpl.
  unfold mbind, M_bind, readClient. by rewrite Hhit.
Qed.

(** What one resolution does: no call is sent; the cache only grows;
    a handle that is returned is the one cached under the key; the
    construction log grows by at most the triple asked for, and only on
    a miss. *)
Lemma getClient_effect this clusterId vaultId env s r s' :
  _getClient this clusterId vaultId env s = (r, s') ->
  sent s' = sent s
  /\ (forall k h, clients s !! k = Some h -> clients s' !! k = Some h)
  /\ (forall h, r = inr h ->
        includes validEnvironments (default "PROD" env) = true
        /\ clients s' !! clientKeyOf clusterId vaultId (default "PROD" env)
           = Some h)
  /\ (constructed s' = constructed s
      /\ (forall k, clients s' !! k = clients s !! k)
      \/ exists c,
           constructed s' = constructed s ++ [c]
           /\ tripleOf c = [(clusterId, vaultId, default "PROD" env)]
           /\ clients s !! clientKeyOf clusterId vaultId (default "PROD" env)
              = None
           /\ clients s' = <[clientKeyOf clusterId vaultId (default "PROD" env)
                             := mkSkyflow (length (constructed s)) c]> (clients s)).
Proof.
  unfold _getClient.
  destruct (includes validEnvironments (default "PROD" env)) eqn:Hval; simpl.
  2:{ unfold throw. intros [= <- <-]. repeat split; auto; try discriminate. }
  unfold mbind, M_bind, readClient, new_Skyflow, storeClient, mret, M_ret.
  destruct (clients s !! _) as [h0|] eqn:Hkey.
  - intros [= <- <-]. repeat split; auto; congruence.
  - destruct (sdk_new _ (backend s)) as [[e|] w] eqn:Hnew; simpl;
      intros [= <- <-]; simpl.
    + repeat split; auto; discriminate.
    + split; [done|]. split.
      { intros k h Hk. rewrite lookup_insert_ne; [done|]. congruence. }
      split.
      { intros h [= <-]. split; [done|]. by rewrite lookup_insert_eq. }
      right. eexists. repeat split; eauto.
Qed.

Lemma resolveAll_keeps this requests s k h :
  clients s !! k = Some h -> clients (resolveAll this requests s) !! k = Some h.
Proof.
  revert s. induction requests as [|[[c v] e] rest IH]; intros s Hk; simpl; [done|].
  apply IH. destruct (_getClient this c v e s) as [r s'] eqn:Hget. simpl.
  by apply (getClient_effect _ _ _ _ _ _ _ Hget).
Qed.

Lemma getClient_consistent this clusterId vaultId env s :
  cache_consistent s ->
  cache_consistent (_getClient this clusterId vaultId env s).2.
Proof.
  intros [Hnd Hin].
  destruct (_getClient this clusterId vaultId env s) as [r s'] eqn:Hget. simpl.
  unfold cache_consistent.
  destruct (getClient_effect _ _ _ _ _ _ _ Hget)
    as (_ & Hkeep & _ & [[Hc Hk] | (c & Hc & Ht & Hmiss & Hins)]).
  - split; rewrite Hc; [done|]. intros c v e Hcve. rewrite Hk. by apply Hin.
  - rewrite Hc, map_app, concat_app. simpl. rewrite Ht, app_nil_r.
    split.
    + apply NoDup_app. split; [done|]. split; [|apply NoDup_singleton].
      intros [[c0 v0] e0] Hold Hnew.
      apply list_elem_of_singleton in Hnew. injection Hnew as -> -> ->.
      apply list_elem_of_In, Hin in Hold. rewrite Hmiss in Hold.
      by destruct Hold.
    + intros c0 v0 e0 Hcve. apply in_app_or in Hcve as [Hold | Hnew].
      * destruct (Hin _ _ _ Hold) as [h Hh]. exists h. by apply Hkeep.
      * destruct Hnew as [[= <- <- <-] | []]. rewrite Hins, lookup_insert_eq. eauto.
Qed.

Lemma resolveAll_consistent this requests s :
  cache_consistent s -> cache_consistent (resolveAll this requests s).
Proof.
  revert s. induction requests as [|[[c v] e] rest IH]; intros s Hs; simpl; [done|].
  apply IH. by apply getClient_consistent.
Qed.

Lemma initial_consistent (w : W) : cache_consistent (initial w).
Proof. split; simpl; [constructor | intros ? ? ? []]. Qed.

End CacheFacts.

Section CacheTheorem.
Import Client Spec.
Context {W : Type} {sdk : Sdk W}.

(** C5. Once a resolution of a (cluster, vault, environment) triple has
    returned a handle, a later resolution of the same triple, whatever
    other resolutions came in between, returns that very handle and
    leaves the cache and the construction log untouched. Starting from
    a fresh client, no triple is ever constructed twice. An environment
    other than SANDBOX and PROD makes the resolution throw, with
    nothing constructed or cached. *)
Theorem client_cache_reuse (this : SkyflowClient) (clusterId vaultId : string) :
  (forall env (s : St W) h s1 requests,
      _getClient this clusterId vaultId env s = (inr h, s1) ->
      let s2 := resolveAll this requests s1 in
      _getClient this clusterId vaultId env s2 = (inr h, s2))
  /\ (forall (w : W) requests,
        NoDup (concat (map tripleOf
                 (constructed (resolveAll this requests (initial w))))))
  /\ (forall env (s : St W),
        env <> "SANDBOX" -> env <> "PROD" ->
        exists msg,
          _getClient this clusterId vaultId (Some env) s = (inl (Error msg), s)).
Proof.
  split; [|split].
  - intros env s h s1 requests Hfirst s2.
    destruct (getClient_effect _ _ _ _ _ _ _ Hfirst) as (_ & _ & Hret & _).
    destruct (Hret h eq_refl) as [Hval Hkey].
    apply getClient_hit; [done|]. by apply resolveAll_keeps.
  - intros w requests.
    apply (resolveAll_consistent this requests (initial w)), initial_consistent.
  - intros env s Hs Hp. apply getClient_invalid. simpl.
    apply String.eqb_neq in Hs, Hp. by rewrite Hs, Hp.
Qed.

End CacheTheorem.

(** An instance: two clusters resolved against the echoing stub; the
    first handle is returned again, two handles were constructed, and
    the environment DEV is refused. *)
Lemma client_cache_reuse_witness :
  let this := Client.new_SkyflowClient
                (Client.mkConfig (JObj [("apiKey", JStr "sky-test")]) None) in
  let s1 := (Client._getClient this "cluster1" "vault1" (Some "SANDBOX")
               (Client.initial tt)).2 in
  let s2 := Spec.resolveAll this [("cluster2", "vault2", None)] s1 in
  (exists h, Client.serial h = 0%nat /\
     Client._getClient this "cluster1" "vault1" (Some "SANDBOX") s2 = (inr h, s2))
  /\ length (Client.constructed s2) = 2%nat
  /\ exists msg,
       Client._getClient this "cluster1" "vault1" (Some "DEV") s2
       = (inl (Error msg), s2).
Proof.
  intros this s1 s2.
  destruct (client_cache_reuse (sdk := Spec.echoing) this "cluster1" "vault1")
    as (Hreuse & _ & Hinvalid).
  assert (Hfirst : exists h, Client.serial h = 0%nat /\
            Client._getClient this "cluster1" "vault1" (Some "SANDBOX")
              (Client.initial tt) = (inr h, s1)).
  { eexists. split; [|vm_compute; reflexivity]. reflexivity. }
  destruct Hfirst as (h & Hserial & Hfirst).
  pose proof (Hreuse _ _ _ _ [("cluster2", "vault2", None)] Hfirst) as Hsecond.
  split; [by exists h|].
  split; [vm_compute; reflexivity|].
  apply Hinvalid; discriminate.
Defined.

(** ** Throwing maps *)

Section ExcFacts.

Lemma mapE_inr {A B} (f : A -> Exc B) l ys :
  mapE f l = inr ys ->
  length ys = length l
  /\ forall i x, l !! i = Some x -> exists y, ys !! i = Some y /\ f x = inr y.
Proof.
  revert ys. induction l as [|a l IH]; simpl; intros ys.
  - intros [= <-]. split; [done|]. intros i x Hi. by destruct i.
  - unfold mbind, Exc_bind, mret, Exc_ret.
    destruct (f a) as [e|y] eqn:Hy; [done|].
    destruct (mapE f l) as [e|ys'] eqn:Hrest; [done|].
    intros [= <-]. destruct (IH ys' eq_refl) as [Hlen Hall].
    split; [simpl; by rewrite Hlen|].
    intros [|i] x Hi; simpl in *.
    + injection Hi as <-. eauto.
    + by apply Hall.
Qed.

Lemma mapE_total {A B} (f : A -> Exc B) (g : A -> B) l :
  Forall (fun x => f x = inr (g x)) l -> mapE f l = inr (map g l).
Proof.
  induction 1 as [|a l Ha Hl IH]; simpl; [done|].
  unfold mbind, Exc_bind, mret, Exc_ret. by rewrite Ha, IH.
Qed.

Lemma assoc_filter_ne k k0 (o : JsObject) :
  assoc k (List.filter (fun kv => negb (String.eqb kv.1 k0)) o)
  = if String.eqb k k0 then None else assoc k o.
Proof.
  induction o as [|[k' v] o IH]; simpl.
  - by destruct (String.eqb k k0).
  - destruct (String.eqb_spec k' k0) as [->|Hk']; simpl.
    + rewrite IH. destruct (String.eqb_spec k k0) as [->|Hk]; [done|].
      destruct (String.eqb_spec k0 k); [congruence|done].
    + destruct (String.eqb_spec k' k) as [->|Hne].
      * destruct (String.eqb_spec k k0); [congruence|done].
      * apply IH.
Qed.

End ExcFacts.

(** ** Query *)

Section QueryFacts.
Import Client Spec.
Context {W : Type} {sdk : Sdk W}.

(** C7. When the backend answers a query, the rows the client returns
    are the backend's rows in the same order, each without its
    [tokenizedData] key and with every other key and value unchanged. *)
Theorem query_strips_tokenizedData (this : SkyflowClient)
  (clusterId vaultId sqlQuery : string) (env : option string)
  (s s1 : St W) (client : Skyflow) (response : SdkResponse) (w' : W) :
  _getClient this clusterId vaultId env s = (inr client, s1) ->
  sdk_send (mkSdkCall client vaultId (Query sqlQuery)) (backend s1)
    = (inr response, w') ->
  let rows := default [] (resp_fields response) in
  Forall (fun row => row <> JUndefined /\ row <> JNull) rows ->
  exists result s',
    query this clusterId vaultId sqlQuery env s = (inr result, s')
    /\ errors result = resp_errors response
    /\ length (data result) = length rows
    /\ forall i row, rows !! i = Some row ->
         exists out,
           data result !! i = Some (JObj out)
           /\ assoc "tokenizedData" out = None
           /\ forall k, k <> "tokenizedData" ->
                assoc k out = assoc k (entries row).
Proof.
  intros Hget Hsend rows Hrows.
  set (strip := fun row : JsVal =>
         JObj (List.filter (fun kv => negb (String.eqb kv.1 "tokenizedData"))
                 (entries row))).
  assert (Hclean : mapE cleanRecord rows = inr (map strip rows)).
  { apply mapE_total. eapply Forall_impl; [exact Hrows|].
    intros row [Hu Hn]. by destruct row. }
  unfold query, mbind, M_bind, try_catch, send, liftE, mret, M_ret.
  rewrite Hget, Hsend. fold rows. rewrite Hclean. simpl.
  eexists _, _. split; [reflexivity|]. simpl.
  split; [done|]. split; [by rewrite length_map|].
  intros i row Hi. exists (List.filter
      (fun kv => negb (String.eqb kv.1 "tokenizedData")) (entries row)).
  split; [by rewrite list_lookup_fmap, Hi|].
  split.
  - by rewrite assoc_filter_ne.
  - intros k Hk. rewrite assoc_filter_ne.
    by destruct (String.eqb_spec k "tokenizedData").
Qed.

End QueryFacts.

(** An instance: one scripted row loses its [tokenizedData] and keeps
    its two other columns. *)
Lemma query_strips_tokenizedData_witness :
  let this := Client.new_SkyflowClient
                (Client.mkConfig (JObj [("apiKey", JStr "sky-test")]) None) in
  let row := JObj [("name", JStr "Ann"); ("tokenizedData", JArr []);
                   ("skyflow_id", JStr "id-1")] in
  let script := [inr (Client.mkSdkResponse (Some [row]) None)] in
  exists result s',
    Client.query this "cluster1" "vault1" "SELECT name FROM users" None
      (Client.initial script) = (inr result, s')
    /\ Client.data result
       = [JObj [("name", JStr "Ann"); ("skyflow_id", JStr "id-1")]].
Proof.
  intros this row script.
  destruct (query_strips_tokenizedData (sdk := Spec.scripted) this
              "cluster1" "vault1" "SELECT name FROM users" None
              (Client.initial script)
              (Client._getClient this "cluster1" "vault1" None
                 (Client.initial script)).2
              (Client.mkSkyflow 0
                 (Client.mkSkyflowConfig
                    [Client.mkVaultConfig "vault1" "cluster1" "PROD"
                       (Client.ApiKey (JStr "sky-test"))]
                    Client.LogLevel_ERROR))
              (Client.mkSdkResponse (Some [row]) None) [])
    as (result & s' & Hq & _).
  - vm_compute. reflexivity.
  - reflexivity.
  - repeat constructor; discriminate.
  - exists result, s'. split; [exact Hq|].
    vm_compute in Hq. by injection Hq as <- _.
Defined.

(** ** Splitting into batches *)

Section ChunkFacts.
Import Client Spec.
Context {A : Type}.
Implicit Types (l : list A) (b k : nat).

Lemma ceil_div_lt n b k : (0 < b)%nat -> (k < ceil_div n b)%nat <-> (k * b < n)%nat.
Proof.
  intros Hb. unfold ceil_div.
  pose proof (Nat.div_mod_eq (n + b - 1) b) as Hdm.
  pose proof (Nat.mod_upper_bound (n + b - 1) b ltac:(lia)) as Hr.
  set (q := ((n + b - 1) / b)%nat) in *.
  set (r := ((n + b - 1) mod b)%nat) in *.
  assert (Hm : (n + b = b * q + r + 1)%nat) by lia.
  clear Hdm. clearbody q r.
  split; intros H.
  - assert ((k + 1) * b <= q * b)%nat by (apply Nat.mul_le_mono_r; lia). lia.
  - destruct (decide (k < q)%nat) as [|Hge]; [done|].
    assert (q * b <= k * b)%nat by (apply Nat.mul_le_mono_r; lia). lia.
Qed.

Lemma ceil_div_le n b : (0 < b)%nat -> (ceil_div n b <= n)%nat.
Proof.
  intros Hb. destruct (decide (ceil_div n b <= n)%nat) as [|Hgt]; [done|].
  assert (Hlt : (n < ceil_div n b)%nat) by lia.
  apply ceil_div_lt in Hlt; [nia|done].
Qed.

Lemma ceil_div_small n b : (0 < n <= b)%nat -> ceil_div n b = 1%nat.
Proof.
  intros [Hn Hb].
  assert (H1 : (0 < ceil_div n b)%nat) by (apply ceil_div_lt; lia).
  assert (H2 : ~ (1 < ceil_div n b)%nat) by (rewrite ceil_div_lt; lia).
  lia.
Qed.

Lemma chunk_at_length b l k :
  length (chunk_at b l k) = (b `min` (length l - k * b))%nat.
Proof. unfold chunk_at. by rewrite length_take, length_drop. Qed.

(** The slice the loop takes at [i = k * b] is chunk [k]. *)
Lemma slice_chunk_at b l k :
  (k * b < length l)%nat ->
  slice l (Z.of_nat (k * b)) (Z.of_nat (k * b) + Z.of_nat b) = chunk_at b l k.
Proof.
  intros Hk. unfold slice, chunk_at.
  destruct (Z.ltb_spec (Z.of_nat (k * b)) 0) as [|_]; [lia|].
  destruct (Z.ltb_spec (Z.of_nat (k * b) + Z.of_nat b) 0) as [|_]; [lia|].
  rewrite (Z.min_l (Z.of_nat (k * b)) (Z.of_nat (length l))) by lia.
  rewrite Nat2Z.id.
  destruct (le_lt_dec (k * b + b) (length l)) as [Hle|Hgt].
  - rewrite Z.min_l by lia. f_equal. lia.
  - rewrite Z.min_r by lia.
    rewrite !take_ge; [done| |]; rewrite length_drop; lia.
Qed.

(** The splitting loop, entered at [i = k * b], ends within
    [ceil(n / b) - k + 1] iterations and has then pushed the chunks
    from [k] on. *)
Lemma splitLoop_chunks fuel l b k (acc : list (list A)) :
  (0 < b)%nat ->
  (k <= ceil_div (length l) b)%nat ->
  (ceil_div (length l) b - k < fuel)%nat ->
  splitLoop fuel l (Z.of_nat b) (Z.of_nat (k * b)) acc
  = Some (acc ++ map (chunk_at b l) (seq k (ceil_div (length l) b - k))).
Proof.
  intros Hb. revert k acc.
  induction fuel as [|fuel IH]; intros k acc Hk Hfuel; [lia|]. simpl.
  destruct (Z.ltb_spec (Z.of_nat (k * b)) (Z.of_nat (length l))) as [Hlt|Hge].
  - assert (Hkc : (k < ceil_div (length l) b)%nat) by (apply ceil_div_lt; lia).
    rewrite slice_chunk_at by lia.
    replace (Z.of_nat (k * b) + Z.of_nat b) with (Z.of_nat (S k * b)) by lia.
    rewrite IH by lia.
    replace (ceil_div (length l) b - k)%nat
      with (S (ceil_div (length l) b - S k)) by lia.
    simpl. by rewrite <- app_assoc.
  - assert (Hkc : ~ (k < ceil_div (length l) b)%nat)
      by (rewrite ceil_div_lt by done; lia).
    replace (ceil_div (length l) b - k)%nat with 0%nat by lia.
    simpl. by rewrite app_nil_r.
Qed.

Lemma splitLoop_from_zero fuel l (batchSize : Z) :
  0 < batchSize ->
  (length l < fuel)%nat ->
  splitLoop fuel l batchSize 0 [] = Some (chunks (Z.to_nat batchSize) l).
Proof.
  intros Hb Hfuel.
  pose proof (splitLoop_chunks fuel l (Z.to_nat batchSize) 0 []) as H.
  rewrite Z2Nat.id in H by lia.
  change (Z.of_nat (0 * Z.to_nat batchSize)) with 0 in H.
  pose proof (ceil_div_le (length l) (Z.to_nat batchSize) ltac:(lia)).
  rewrite H by lia. by rewrite Nat.sub_0_r.
Qed.

Lemma concat_chunks_from b l k m :
  concat (map (chunk_at b l) (seq k m)) = take (m * b) (drop (k * b) l).
Proof.
  revert k. induction m as [|m IH]; intros k; simpl; [done|].
  rewrite IH. unfold chunk_at.
  replace (S k * b)%nat with (k * b + b)%nat by lia.
  rewrite <- drop_drop. by rewrite <- take_take_drop.
Qed.

(** The chunks, concatenated, are the input. *)
Lemma concat_chunks b l : (0 < b)%nat -> concat (chunks b l) = l.
Proof.
  intros Hb. unfold chunks. rewrite concat_chunks_from. simpl. rewrite drop_0.
  apply take_ge.
  destruct (decide (length l <= ceil_div (length l) b * b)%nat) as [|Hgt]; [done|].
  assert (Hlt : (ceil_div (length l) b * b < length l)%nat) by lia.
  apply ceil_div_lt in Hlt; [lia|done].
Qed.

Lemma length_chunks b l : length (chunks b l) = ceil_div (length l) b.
Proof. unfold chunks. by rewrite length_map, length_seq. Qed.

Lemma chunks_lookup b l k c :
  chunks b l !! k = Some c ->
  (k < ceil_div (length l) b)%nat /\ c = chunk_at b l k.
Proof.
  unfold chunks. rewrite list_lookup_fmap. intros Hk.
  destruct (seq 0 _ !! k) as [k'|] eqn:Hseq; [|done].
  apply lookup_seq in Hseq as [-> Hlt]. simpl in Hk. by injection Hk as <-.
Qed.

(** Every chunk holds between one and [b] items, and every chunk but
    the last exactly [b]. *)
Lemma chunks_sizes b l k c :
  (0 < b)%nat ->
  chunks b l !! k = Some c ->
  (0 < length c <= b)%nat
  /\ (S k < length (chunks b l) -> length c = b)%nat.
Proof.
  intros Hb Hk. apply chunks_lookup in Hk as [Hlt ->].
  rewrite chunk_at_length, length_chunks.
  pose proof (proj1 (ceil_div_lt _ _ _ Hb) Hlt).
  split; [lia|]. intros Hnext.
  pose proof (proj1 (ceil_div_lt _ _ _ Hb) Hnext). lia.
Qed.

(** In a concatenation of lists that all hold [b] items, but for a last
    and shorter one, position [i] is position [i mod b] of list
    [i / b]. *)
Lemma concat_lookup_uniform b (ls : list (list A)) i :
  (0 < b)%nat ->
  (forall k c, ls !! k = Some c ->
     (length c <= b)%nat /\ (S k < length ls -> length c = b)%nat) ->
  concat ls !! i = ls !! (i / b)%nat ≫= (fun c => c !! (i mod b)%nat).
Proof.
  intros Hb. revert i. induction ls as [|c ls IH]; intros i Hall; simpl; [done|].
  destruct (Hall 0%nat c eq_refl) as [Hle Hfull].
  destruct (decide (i < b)%nat) as [Hi|Hi].
  - rewrite Nat.div_small, Nat.mod_small by done. simpl.
    destruct (decide (i < length c)%nat).
    + by rewrite lookup_app_l.
    + destruct ls as [|c' ls].
      * simpl. rewrite app_nil_r. done.
      * simpl in Hfull. lia.
  - assert (Hdiv : (i / b = S ((i - b) / b))%nat).
    { replace i with ((i - b) + 1 * b)%nat at 1 by lia.
      rewrite Nat.div_add by lia. lia. }
    assert (Hmod : (i mod b = (i - b) mod b)%nat).
    { replace i with ((i - b) + 1 * b)%nat at 1 by lia.
      by rewrite Nat.Div0.mod_add. }
    rewrite Hdiv, Hmod. simpl.
    destruct ls as [|c' ls].
    + simpl. rewrite app_nil_r. apply lookup_ge_None_2. lia.
    + simpl in Hfull. rewrite lookup_app_r by lia.
      rewrite Hfull by lia. apply IH.
      intros k c0 Hk. destruct (Hall (S k) c0 Hk) as [H1 H2].
      split; [done|]. intros Hlt. apply H2. simpl in *. lia.
Qed.

End ChunkFacts.

(** ** The batched dispatch *)

Section DispatchFacts.
Import Client Spec.
Context {W : Type} {sdk : Sdk W}.

Implicit Types (s : St W) (this : SkyflowClient).

Lemma mapM_nil {T} (call : list T -> M W BatchResult) s :
  mapM call [] s = (inr [], s).
Proof. reflexivity. Qed.

Lemma mapM_cons {T} (call : list T -> M W BatchResult) batch rest s :
  mapM call (batch :: rest) s =
  match call batch s with
  | (inl e, s1) => (inl e, s1)
  | (inr r, s1) =>
      match mapM call rest s1 with
      | (inl e, s2) => (inl e, s2)
      | (inr rs, s2) => (inr (r :: rs), s2)
      end
  end.
Proof.
  simpl. unfold mbind, M_bind. destruct (call batch s) as [[e|r] s1]; [done|].
  by destruct (mapM call rest s1) as [[e|rs] s2].
Qed.

(** Running the calls in a row up to a call that throws. *)
Lemma mapM_app_throw {T} (call : list T -> M W BatchResult) pre c post s rs s1 e s2 :
  mapM call pre s = (inr rs, s1) ->
  call c s1 = (inl e, s2) ->
  mapM call (pre ++ c :: post) s = (inl e, s2).
Proof.
  revert s rs. induction pre as [|b pre IH]; intros s rs Hpre Hc.
  - rewrite mapM_nil in Hpre. injection Hpre as <- <-.
    simpl app. by rewrite mapM_cons, Hc.
  - simpl app. rewrite mapM_cons in *.
    destruct (call b s) as [[e0|r] s0]; [done|].
    destruct (mapM call pre s0) as [[e0|rs0] s0'] eqn:Hrest; [done|].
    injection Hpre as <- <-. by rewrite (IH _ _ Hrest Hc).
Qed.

(** The loop over the batches is the calls made in a row, first
    throw included, followed by the assembly of their results. *)
Lemma processBatches_mapM {T} (call : list T -> M W BatchResult) batches
  results errs s :
  processBatches call batches results errs s =
  match mapM call batches s with
  | (inl e, s') => (inl e, s')
  | (inr rs, s') =>
      (inr (mkBatchResult
              (results ++ concat (map data rs))
              (match errs ++ concat (map errorsOf rs) with
               | [] => None
               | es => Some es
               end)), s')
  end.
Proof.
  revert results errs s.
  induction batches as [|batch rest IH]; intros results errs s.
  - rewrite mapM_nil. simpl. rewrite !app_nil_r. by destruct errs.
  - rewrite mapM_cons. simpl processBatches.
    unfold mbind, M_bind, try_catch, throw.
    destruct (call batch s) as [[e|r] s1]; [done|].
    rewrite IH. destruct (mapM call rest s1) as [[e|rs] s2]; [done|].
    simpl. rewrite <- !app_assoc. unfold errorsOf at 2.
    destruct (errors r); simpl; by rewrite <- ?app_assoc.
Qed.

Lemma processBatches_assemble {T} (call : list T -> M W BatchResult) batches s :
  processBatches call batches [] [] s =
  match mapM call batches s with
  | (inl e, s') => (inl e, s')
  | (inr rs, s') => (inr (assemble rs), s')
  end.
Proof.
  rewrite processBatches_mapM. destruct (mapM call batches s) as [[e|rs] s'].
  - done.
  - unfold assemble. simpl. by destruct (concat (map errorsOf rs)).
Qed.

(** With at most a batch of items, the method is its per-batch call. *)
Lemma run_small (op : BatchedOp) fuel this clusterId vaultId env items :
  Z.of_nat (length items) <= orDefault25 (configuredBatchSize op this) ->
  run op fuel this clusterId vaultId env items
  = Some (batchCall op this clusterId vaultId env items).
Proof.
  intros Hle. apply Z.leb_le in Hle.
  destruct op; simpl in *; unfold tokenize, tokenizeByot, detokenize;
    by rewrite Hle.
Qed.

(** With more, and fuel for the splitting loop, it is the loop over the
    chunks. *)
Lemma run_large (op : BatchedOp) fuel this clusterId vaultId env items :
  let B := orDefault25 (configuredBatchSize op this) in
  0 < B -> B < Z.of_nat (length items) -> (length items < fuel)%nat ->
  run op fuel this clusterId vaultId env items
  = Some (processBatches (batchCall op this clusterId vaultId env)
            (chunks (Z.to_nat B) items) [] []).
Proof.
  intros B Hpos Hgt Hfuel.
  assert (Hleb : (Z.of_nat (length items) <=? B) = false) by (apply Z.leb_gt; lia).
  pose proof (splitLoop_from_zero fuel items B Hpos Hfuel) as Hsplit.
  destruct op; simpl in *; unfold tokenize, tokenizeByot, detokenize;
    fold B; by rewrite Hleb, Hsplit.
Qed.

(** One per-batch call either throws before anything is sent, or sends
    exactly the request of its batch. *)
Lemma batchCall_sent (op : BatchedOp) this clusterId vaultId env batch
  s r s' :
  batchCall op this clusterId vaultId env batch s = (r, s') ->
  (exists e, r = inl e /\ sent s' = sent s)
  \/ (exists client,
        sent s' = sent s ++ [mkSdkCall client vaultId (requestOf op batch)]).
Proof.
  destruct op; simpl;
    unfold _tokenizeBatch, _tokenizeByotBatch, _detokenizeBatch;
    unfold mbind at 1; unfold M_bind at 1;
    destruct (_getClient _ _ _ _ s) as [[e|client] s1] eqn:Hget;
    destruct (getClient_effect _ _ _ _ _ _ _ Hget) as (Hsent & _);
    try (intros [= <- <-]; left; eauto; fail);
    unfold try_catch, mbind, M_bind, send, liftE, mret, M_ret, throw;
    destruct (sdk_send _ (backend s1)) as [[e|response] w] eqn:Hsend;
    try destruct (mapE tokenValue _) as [e|values];
    intros [= <- <-]; right; exists client; simpl; by rewrite Hsent.
Qed.

Lemma batchCall_ok_sent (op : BatchedOp) this clusterId vaultId env batch
  s r s' :
  batchCall op this clusterId vaultId env batch s = (inr r, s') ->
  exists client,
    sent s' = sent s ++ [mkSdkCall client vaultId (requestOf op batch)].
Proof.
  intros H. by destruct (batchCall_sent _ _ _ _ _ _ _ _ _ H) as [(e & ? & _)|].
Qed.

(** The calls made in a row send, in order, the requests of the batches
    they reach: all of them when none throws, and otherwise those of
    the batches before the one that throws, with or without that one's. *)
Lemma mapM_sent (op : BatchedOp) this clusterId vaultId env batches s r s' :
  mapM (batchCall op this clusterId vaultId env) batches s = (r, s') ->
  exists calls,
    sent s' = sent s ++ calls
    /\ Forall (fun call => call_vaultId call = vaultId) calls
    /\ match r with
       | inr rs =>
           length rs = length batches
           /\ map call_request calls = map (requestOf op) batches
       | inl e =>
           exists pre c post,
             batches = pre ++ c :: post
             /\ (map call_request calls = map (requestOf op) pre
                 \/ map call_request calls = map (requestOf op) (pre ++ [c]))
       end.
Proof.
  revert s r s'. induction batches as [|batch rest IH]; intros s r s'.
  - rewrite mapM_nil. intros [= <- <-]. exists []. by rewrite app_nil_r.
  - rewrite mapM_cons.
    destruct (batchCall _ _ _ _ _ batch s) as [[e|r0] s1] eqn:Hcall.
    + intros [= <- <-].
      destruct (batchCall_sent _ _ _ _ _ _ _ _ _ Hcall)
        as [(e' & _ & Hsent)|(client & Hsent)].
      * exists []. rewrite app_nil_r. repeat split; [done|constructor|].
        exists [], batch, rest. split; [done|]. by left.
      * eexists. split; [exact Hsent|]. split; [by repeat constructor|].
        exists [], batch, rest. split; [done|]. by right.
    + destruct (batchCall_ok_sent _ _ _ _ _ _ _ _ _ Hcall) as (client & Hsent).
      destruct (mapM (batchCall op this clusterId vaultId env) rest s1)
        as [[e|rs] s2] eqn:Hrest;
        intros [= <- <-];
        destruct (IH _ _ _ Hrest) as (calls & Hcalls & Hvault & Hr);
        exists (mkSdkCall client vaultId (requestOf op batch) :: calls);
        (split; [rewrite Hcalls, Hsent; by rewrite <- app_assoc|]);
        (split; [by constructor|]).
      * destruct Hr as (pre & c & post & -> & Hpre).
        exists (batch :: pre), c, post. split; [done|].
        simpl. destruct Hpre as [-> | ->]; [by left | by right].
      * destruct Hr as [Hlen Hreq]. simpl. by rewrite Hlen, Hreq.
Qed.

End DispatchFacts.

Section DispatchTheorems.
Import Client Spec.
Context {W : Type} {sdk : Sdk W}.

Implicit Types (s : St W) (this : SkyflowClient).

Lemma errorsOf_assemble rs : errorsOf (assemble rs) = concat (map errorsOf rs).
Proof.
  unfold assemble, errorsOf at 1. simpl.
  by destruct (concat (map errorsOf rs)).
Qed.

(** C1. For each of the three batched operations, with [N] items and
    an effective batch size [B > 0]: when [N <= B] the operation is its
    per-batch call on the whole list, whose result it returns as it is,
    one request being sent; when [N > B] (and with fuel for the loop)
    the items are cut into [ceil(N / B)] consecutive chunks of at most
    [B] items, chunk [k] holding the items from position [k * B]; the
    per-batch call is made once on each chunk in input order, sending the
    chunks' requests in that order, and when every call resolves the
    result holds the concatenation of their data lists and of their
    errors lists in chunk order. When moreover each call returns one
    output per input, output [i] is output [i mod B] of the call on chunk
    [i / B], the chunk and the place where input item [i] is. *)
Theorem dispatch_batches (op : BatchedOp) this clusterId vaultId env fuel
  (items : list (itemT op)) :
  let B := orDefault25 (configuredBatchSize op this) in
  let b := Z.to_nat B in
  let call := batchCall op this clusterId vaultId env in
  0 < B ->
  (Z.of_nat (length items) <= B ->
     run op fuel this clusterId vaultId env items = Some (call items)
     /\ forall s r s', call items s = (inr r, s') ->
          exists client,
            sent s' = sent s ++ [mkSdkCall client vaultId (requestOf op items)])
  /\ (B < Z.of_nat (length items) -> (length items < fuel)%nat ->
      let cs := chunks b items in
      length cs = ceil_div (length items) b
      /\ concat cs = items
      /\ (forall k c, cs !! k = Some c ->
            c = take b (drop (k * b) items) /\ (0 < length c <= b)%nat)
      /\ (forall i, items !! i
                    = cs !! (i / b)%nat ≫= (fun c => c !! (i mod b)%nat))
      /\ exists m,
           run op fuel this clusterId vaultId env items = Some m
           /\ forall s rs s',
                mapM call cs s = (inr rs, s') ->
                m s = (inr (assemble rs), s')
                /\ data (assemble rs) = concat (map data rs)
                /\ errorsOf (assemble rs) = concat (map errorsOf rs)
                /\ (exists calls,
                      sent s' = sent s ++ calls
                      /\ length calls = ceil_div (length items) b
                      /\ map call_request calls = map (requestOf op) cs)
                /\ (Forall2 (fun r c => length (data r) = length c) rs cs ->
                    forall i,
                      data (assemble rs) !! i
                      = rs !! (i / b)%nat ≫= (fun r => data r !! (i mod b)%nat))).
Proof.
  intros B b call Hpos. split.
  - intros Hle. split; [by apply run_small|].
    intros s r s' Hcall. by eapply batchCall_ok_sent.
  - intros Hgt Hfuel cs.
    assert (Hb : (0 < b)%nat) by (unfold b; lia).
    assert (Hsizes : forall k c, cs !! k = Some c ->
              (length c <= b)%nat /\ (S k < length cs -> length c = b)%nat).
    { intros k c Hk. destruct (chunks_sizes b items k c Hb Hk) as [[_ ?] ?].
      by split. }
    split; [apply length_chunks|]. split; [by apply concat_chunks|].
    split.
    { intros k c Hk. split; [by apply chunks_lookup in Hk as [_ ->]|].
      by apply (chunks_sizes b items k c Hb Hk). }
    split.
    { intros i. rewrite <- (concat_chunks b items Hb) at 1.
      by apply concat_lookup_uniform. }
    exists (processBatches call cs [] []).
    split; [by apply run_large|].
    intros s rs s' Hrun.
    split; [by rewrite processBatches_assemble, Hrun|].
    split; [done|]. split; [apply errorsOf_assemble|].
    destruct (mapM_sent _ _ _ _ _ _ _ _ _ Hrun) as (calls & Hsent & _ & _ & Hreq).
    split.
    { exists calls. split; [done|]. split; [|done].
      rewrite <- (length_map call_request), Hreq, length_map.
      apply length_chunks. }
    intros Hone i. simpl.
    rewrite (concat_lookup_uniform b (map data rs) i Hb).
    + rewrite list_lookup_fmap. by destruct (rs !! (i / b)%nat).
    + intros k d Hk. rewrite list_lookup_fmap in Hk.
      destruct (rs !! k) as [r|] eqn:Hr; [|done]. injection Hk as <-.
      destruct (Forall2_lookup_l _ _ _ _ _ Hone Hr) as (c & Hc & Hlen).
      rewrite length_map, (Forall2_length _ _ _ Hone), Hlen.
      by apply Hsizes.
Qed.

End DispatchTheorems.

(** An instance: three tokens with a batch size of 2 go out as the
    chunks [t1, t2] and [t3], and come back in input order. *)
Lemma dispatch_batches_witness :
  let this := Client.new_SkyflowClient
    (Client.mkConfig (JObj [("apiKey", JStr "sky-test")])
       (Some (Client.mkBatching None (Some (Client.mkOpBatching (Some 2)))))) in
  let tokens := [JStr "t1"; JStr "t2"; JStr "t3"] in
  let request ts :=
    Client.Detokenize (map (fun t => JObj [("token", t)]) ts)
                      (Client.mkDetokenizeOptions (Some true)) in
  let answer t := JObj [("token", JStr t); ("value", JStr t)] in
  exists m s',
    Client.detokenize 4 this "cluster1" "vault1" tokens [] None = Some m
    /\ m (Client.initial tt)
       = (inr (Client.mkBatchResult [answer "t1"; answer "t2"; answer "t3"] None),
          s')
    /\ map Client.call_request (Client.sent s')
       = [request [JStr "t1"; JStr "t2"]; request [JStr "t3"]].
Proof.
  intros this tokens request answer.
  destruct (dispatch_batches (sdk := Spec.echoing) (Spec.OpDetokenize []) this
              "cluster1" "vault1" None 4 tokens) as [_ Hlarge];
    [reflexivity|].
  destruct Hlarge as (_ & _ & _ & _ & m & Hrun & Hspec);
    [reflexivity | simpl; lia |].
  edestruct (Hspec (Client.initial tt)) as (Hm & _ & _ & _ & _);
    [vm_compute; reflexivity|].
  exists m. eexists. split; [exact Hrun|].
  rewrite Hm. split; vm_compute; reflexivity.
Defined.

Section AbortTheorems.
Import Client Spec.
Context {W : Type} {sdk : Sdk W}.

Implicit Types (s : St W) (this : SkyflowClient).

(** C2. In a dispatch over several chunks, when the calls on the chunks
    before chunk [c] resolve and the call on [c] throws [e], the whole
    operation throws that same [e] and ends in the state that call left:
    the results and soft errors of the earlier chunks are not returned,
    and nothing is sent for the chunks after [c]. Soft errors that
    resolved calls report do not abort: when every call resolves, the
    result carries their concatenation. *)
Theorem dispatch_aborts (op : BatchedOp) this clusterId vaultId env fuel
  (items : list (itemT op)) pre c post s rs s1 e s2 :
  let B := orDefault25 (configuredBatchSize op this) in
  let call := batchCall op this clusterId vaultId env in
  0 < B -> B < Z.of_nat (length items) -> (length items < fuel)%nat ->
  chunks (Z.to_nat B) items = pre ++ c :: post ->
  mapM call pre s = (inr rs, s1) ->
  call c s1 = (inl e, s2) ->
  exists m,
    run op fuel this clusterId vaultId env items = Some m
    /\ m s = (inl e, s2)
    /\ (exists calls,
          sent s2 = sent s ++ calls
          /\ (map call_request calls = map (requestOf op) pre
              \/ map call_request calls = map (requestOf op) (pre ++ [c])))
    /\ (forall s0 rs0 s0',
          mapM call (chunks (Z.to_nat B) items) s0 = (inr rs0, s0') ->
          exists result,
            m s0 = (inr result, s0')
            /\ errorsOf result = concat (map errorsOf rs0)).
Proof.
  intros B call Hpos Hgt Hfuel Hchunks Hpre Hc.
  exists (processBatches call (chunks (Z.to_nat B) items) [] []).
  split; [by apply run_large|].
  split.
  { rewrite processBatches_assemble, Hchunks.
    by rewrite (mapM_app_throw call pre c post s rs s1 e s2 Hpre Hc). }
  split.
  { destruct (mapM_sent _ _ _ _ _ _ _ _ _ Hpre) as (calls & Hsent & _ & _ & Hreq).
    destruct (batchCall_sent _ _ _ _ _ _ _ _ _ Hc)
      as [(e' & _ & Hsame)|(client & Hone)].
    - exists calls. split; [by rewrite Hsame|]. by left.
    - exists (calls ++ [mkSdkCall client vaultId (requestOf op c)]).
      split; [by rewrite Hone, Hsent, app_assoc|].
      right. by rewrite !map_app, Hreq. }
  intros s0 rs0 s0' Hall. exists (assemble rs0).
  split; [by rewrite processBatches_assemble, Hall|].
  apply errorsOf_assemble.
Qed.

(** C10, amended. A configured batch size that is missing, [null] or
    [0] makes the effective batch size 25, and no configuration makes
    it 0. With that size the splitting loop ends and the operation
    sends at most [max(1, ceil(N / 25))] requests, and exactly that many
    when it returns normally: one request for an input of at most 25
    items, the empty input included. *)
Theorem default_batch_size (op : BatchedOp) this clusterId vaultId env fuel
  (items : list (itemT op)) :
  (forall configured, orDefault25 configured <> 0)
  /\ (configuredBatchSize op this = None
      \/ configuredBatchSize op this = Some 0 ->
      (length items < fuel)%nat ->
      orDefault25 (configuredBatchSize op this) = 25
      /\ exists m,
           run op fuel this clusterId vaultId env items = Some m
           /\ forall s r s',
                m s = (r, s') ->
                exists calls,
                  sent s' = sent s ++ calls
                  /\ (length calls <= 1 `max` ceil_div (length items) 25)%nat
                  /\ (forall result, r = inr result ->
                        length calls = (1 `max` ceil_div (length items) 25)%nat)).
Proof.
  split.
  { intros [n|]; simpl; [|done]. by destruct (Z.eqb_spec n 0). }
  intros Hconf Hfuel.
  assert (HB : orDefault25 (configuredBatchSize op this) = 25)
    by (by destruct Hconf as [-> | ->]).
  split; [done|].
  destruct (Z.le_gt_cases (Z.of_nat (length items)) 25) as [Hle|Hgt].
  - exists (batchCall op this clusterId vaultId env items).
    split; [apply run_small; by rewrite HB|].
    assert (Hmax : (1 `max` ceil_div (length items) 25 = 1)%nat).
    { destruct (decide (length items = 0%nat)) as [->|Hne]; [done|].
      rewrite ceil_div_small by lia. done. }
    rewrite Hmax. intros s r s' Hcall.
    destruct (batchCall_sent _ _ _ _ _ _ _ _ _ Hcall)
      as [(e & -> & Hsame)|(client & Hone)].
    + exists []. rewrite app_nil_r. split; [done|]. split; [simpl; lia|done].
    + eexists. split; [exact Hone|]. by split.
  - exists (processBatches (batchCall op this clusterId vaultId env)
              (chunks 25 items) [] []).
    split.
    { rewrite run_large; rewrite ?HB; try done. }
    assert (Hceil : (0 < ceil_div (length items) 25)%nat)
      by (apply ceil_div_lt; lia).
    rewrite Nat.max_r by lia.
    intros s r s'. rewrite processBatches_assemble.
    destruct (mapM (batchCall op this clusterId vaultId env) (chunks 25 items) s)
      as [[e|rs] s0] eqn:Hrun;
      intros [= <- <-];
      destruct (mapM_sent _ _ _ _ _ _ _ _ _ Hrun) as (calls & Hsent & _ & Hr);
      exists calls; (split; [done|]).
    + split; [|done]. destruct Hr as (pre & c & post & Hsplit & Hreq).
      apply (f_equal length) in Hsplit.
      rewrite length_chunks, length_app in Hsplit. simpl in Hsplit.
      rewrite <- (length_map call_request).
      destruct Hreq as [-> | ->]; rewrite length_map, ?length_app; simpl; lia.
    + destruct Hr as [_ Hreq].
      assert (Hlen : length calls = ceil_div (length items) 25).
      { by rewrite <- (length_map call_request), Hreq, length_map, length_chunks. }
      split; [lia|done].
Qed.

End AbortTheorems.

(** An instance: the first chunk resolves with a soft error, the second
    is rejected; the detokenize throws and returns nothing. *)
Lemma dispatch_aborts_witness :
  let this := Client.new_SkyflowClient
    (Client.mkConfig (JObj [("apiKey", JStr "sky-test")])
       (Some (Client.mkBatching None (Some (Client.mkOpBatching (Some 2)))))) in
  let tokens := [JStr "t1"; JStr "t2"; JStr "t3"] in
  let script :=
    [inr (Client.mkSdkResponse
            (Some [JObj [("token", JStr "t1"); ("value", JStr "v1")]])
            (Some [JObj [("error", JStr "t2 not found")]]))] in
  exists m s2,
    Client.detokenize 4 this "cluster1" "vault1" tokens [] None = Some m
    /\ m (Client.initial script)
       = (inl (Error "Detokenization failed: rejected"), s2)
    /\ length (Client.sent s2) = 2%nat.
Proof.
  intros this tokens script.
  edestruct (dispatch_aborts (sdk := Spec.scripted) (Spec.OpDetokenize []) this
               "cluster1" "vault1" None 4 tokens
               [[JStr "t1"; JStr "t2"]] [JStr "t3"] [] (Client.initial script))
    as (m & Hrun & Hm & _ & _).
  - reflexivity.
  - simpl; lia.
  - simpl; lia.
  - reflexivity.
  - vm_compute. reflexivity.
  - vm_compute. reflexivity.
  - exists m. eexists. split; [exact Hrun|]. split; [exact Hm|].
    vm_compute. reflexivity.
Defined.

(** An instance: 26 tokens and no configured size take two requests. *)
Lemma default_batch_size_witness :
  let this := Client.new_SkyflowClient
    (Client.mkConfig (JObj [("apiKey", JStr "sky-test")]) None) in
  let tokens := replicate 26 (JStr "t") in
  exists m,
    Client.detokenize 27 this "cluster1" "vault1" tokens [] None = Some m
    /\ length (Client.sent (m (Client.initial tt)).2) = 2%nat.
Proof.
  intros this tokens.
  destruct (default_batch_size (sdk := Spec.echoing) (Spec.OpDetokenize []) this
              "cluster1" "vault1" None 27 tokens) as [_ Hdefault].
  destruct Hdefault as (_ & m & Hrun & Hcount); [by left | simpl; lia |].
  exists m. split; [exact Hrun|].
  assert (Hok : exists result s', m (Client.initial tt) = (inr result, s')).
  { revert Hrun. vm_compute. intros [= <-]. eauto. }
  destruct Hok as (result & s' & Hm).
  destruct (Hcount _ _ _ Hm) as (calls & Hsent & _ & Hexact).
  rewrite Hm. simpl. rewrite Hsent. simpl. by rewrite (Hexact result eq_refl).
Defined.

(** C10 as it stands fails on the empty input: with no configured batch
    size, a detokenize of no token sends one request, not
    [ceil(0 / 25) = 0]. *)
Lemma default_batch_size_empty_input :
  let this := Client.new_SkyflowClient
    (Client.mkConfig (JObj [("apiKey", JStr "sky-test")]) None) in
  exists m,
    Client.detokenize 1 this "cluster1" "vault1" [] [] None = Some m
    /\ length (Client.sent (m (Client.initial tt)).2) = 1%nat
    /\ Spec.ceil_div 0 25 = 0%nat.
Proof. eexists. split; [reflexivity|]. split; reflexivity. Qed.

(** ** The redaction mode *)

Section RedactionTheorems.
Import Client Spec.
Context {W : Type} {sdk : Sdk W}.

Implicit Types (s : St W) (this : SkyflowClient).

(** Whatever an operation sends is, in order, the requests of some
    batches of its items. *)
Lemma run_sends (op : BatchedOp) fuel this clusterId vaultId env items
  m s r s' :
  run op fuel this clusterId vaultId env items = Some m ->
  m s = (r, s') ->
  exists calls batches,
    sent s' = sent s ++ calls
    /\ map call_request calls = map (requestOf op) batches.
Proof.
  intros Hrun Hm.
  assert (Hshape : m = batchCall op this clusterId vaultId env items
                   \/ exists batches,
                        m = processBatches (batchCall op this clusterId vaultId env)
                              batches [] []).
  { destruct op; simpl in Hrun; unfold tokenize, tokenizeByot, detokenize in Hrun;
      (destruct (_ <=? _); [injection Hrun as <-; by left|]);
      (destruct (splitLoop _ _ _ _ _) as [batches|]; [|done]);
      injection Hrun as <-; right; by exists batches. }
  destruct Hshape as [-> | (batches & ->)].
  - destruct (batchCall_sent _ _ _ _ _ _ _ _ _ Hm)
      as [(e & _ & Hsame)|(client & Hone)].
    + exists [], []. by rewrite app_nil_r.
    + eexists _, [items]. split; [exact Hone|done].
  - rewrite processBatches_assemble in Hm.
    destruct (mapM (batchCall op this clusterId vaultId env) batches s)
      as [[e|rs] s0] eqn:Hall;
      injection Hm as <- <-;
      destruct (mapM_sent _ _ _ _ _ _ _ _ _ Hall) as (calls & Hsent & _ & Hr).
    + destruct Hr as (pre & c & post & _ & [Hreq | Hreq]); eauto.
    + destruct Hr as [_ Hreq]. eauto.
Qed.





End RedactionTheorems.



(** ** The row-indexed transport *)

Section SnowflakeTheorems.
Import Client Spec Snowflake.
Context {W : Type} {sdk : Sdk W}.

Lemma rows_column (pairs : list (JsVal * JsVal)) :
  mapE (fun row => member row "0") (map (fun p => JArr [p.1; p.2]) pairs)
  = inr (map fst pairs)
  /\ mapE (fun row => member row "1") (map (fun p => JArr [p.1; p.2]) pairs)
     = inr (map snd pairs).
Proof.
  split; (induction pairs as [|p pairs IH]; simpl; [done|]);
    unfold mbind, Exc_bind, mret, Exc_ret in *; by rewrite IH.
Qed.

Lemma imap_row_numbers (f : nat -> JsVal -> JsVal) rowNumbers :
  (forall i rowNum, prop (f i rowNum) "0" = rowNum) ->
  map (fun row => prop row "0") (imap f rowNumbers) = rowNumbers.
Proof.
  revert f. induction rowNumbers as [|rn rest IH]; intros f Hf; [done|].
  rewrite imap_cons. simpl. rewrite Hf. f_equal. apply IH.
  intros i rowNum. apply Hf.
Qed.

(** The output keeps the input row numbers, each in its place. *)
Lemma rezip_row_numbers rowNumbers outputs :
  map (fun row => prop row "0") (rezip rowNumbers outputs) = rowNumbers.
Proof. apply imap_row_numbers. done. Qed.

Lemma rezip_length rowNumbers outputs :
  length (rezip rowNumbers outputs) = length rowNumbers.
Proof. apply length_imap. Qed.

Lemma rezip_zip rowNumbers outputs :
  length outputs = length rowNumbers ->
  rezip rowNumbers outputs
  = zip_with (fun rowNum output => JArr [rowNum; output]) rowNumbers outputs.
Proof.
  unfold rezip. revert outputs.
  induction rowNumbers as [|rn rest IH]; intros [|o outputs] Hlen; try done.
  rewrite imap_cons. simpl. f_equal. simpl in Hlen.
  rewrite <- (IH outputs) by lia. by apply imap_ext.
Qed.

Lemma members_total (k : string) (records : list JsVal) :
  Forall (fun record => record <> JUndefined /\ record <> JNull) records ->
  mapE (fun record => member record k) records
  = inr (map (fun record => prop record k) records).
Proof.
  intros Hall. apply mapE_total. eapply Forall_impl; [exact Hall|].
  intros record [Hu Hn]. by destruct record.
Qed.

(** C3. For row-indexed input [[rowNumber, value], ...], whatever the
    row numbers, when the client operation on the values, taken in
    input order, resolves with one output per input, the handler
    returns the rows [[rowNumber_i, result_i]]: the input row numbers in
    their input positions, each with the output at its position (the
    column of the tokenized record, the value of the detokenized one). *)
Theorem snowflake_rows_keep_numbers fuel (pairs : list (JsVal * JsVal))
  (requestConfig : RequestConfig) (client : SkyflowClient) :
  let rows := map (fun p => JArr [p.1; p.2]) pairs in
  (forall tbl col m (s : St W) response s',
      table requestConfig = Some tbl -> tbl <> EmptyString ->
      columnName requestConfig = Some col -> col <> EmptyString ->
      tokenize fuel client (clusterId requestConfig) (vaultId requestConfig) tbl
        (map (fun p => [(col, p.2)]) pairs) [] None = Some m ->
      m s = (inr response, s') ->
      length (data response) = length pairs ->
      Forall (fun record => record <> JUndefined /\ record <> JNull)
             (data response) ->
      exists h out,
        handleTokenize fuel rows requestConfig client = Some h
        /\ h s = (inr out, s')
        /\ out = zip_with (fun rowNum result => JArr [rowNum; result])
                   (map fst pairs)
                   (map (fun record => prop record col) (data response))
        /\ length out = length pairs
        /\ map (fun row => prop row "0") out = map fst pairs)
  /\ (forall m (s : St W) response s',
        detokenize fuel client (clusterId requestConfig) (vaultId requestConfig)
          (map snd pairs) [] None = Some m ->
        m s = (inr response, s') ->
        length (data response) = length pairs ->
        Forall (fun record => record <> JUndefined /\ record <> JNull)
               (data response) ->
        exists h out,
          handleDetokenize fuel rows requestConfig client = Some h
          /\ h s = (inr out, s')
          /\ out = zip_with (fun rowNum result => JArr [rowNum; result])
                     (map fst pairs)
                     (map (fun record => prop record "value") (data response))
          /\ length out = length pairs
          /\ map (fun row => prop row "0") out = map fst pairs).
Proof.
  intros rows. subst rows.
  destruct (rows_column pairs) as [Hnumbers Hvalues]. split.
  - intros tbl col m s response s' Htable Htbl Hcolumn Hcol Hrun Hm Hlen Hrecords.
    unfold handleTokenize, missing. rewrite Htable, Hcolumn.
    apply String.eqb_neq in Htbl, Hcol. rewrite Htbl, Hcol.
    rewrite Hnumbers, Hvalues, map_map.
    change (default EmptyString (Some tbl)) with tbl.
    change (default EmptyString (Some col)) with col.
    rewrite Hrun. simpl. eexists _, _. split; [reflexivity|].
    unfold mbind, M_bind, liftE, mret, M_ret. rewrite Hm.
    rewrite (members_total col _ Hrecords).
    split; [reflexivity|].
    split; [apply rezip_zip; by rewrite !length_map|].
    split; [by rewrite rezip_length, length_map|].
    apply rezip_row_numbers.
  - intros m s response s' Hrun Hm Hlen Hrecords.
    unfold handleDetokenize. rewrite Hnumbers, Hvalues, Hrun. simpl.
    eexists _, _. split; [reflexivity|].
    unfold mbind, M_bind, liftE, mret, M_ret. rewrite Hm.
    rewrite (members_total "value" _ Hrecords).
    split; [reflexivity|].
    split; [apply rezip_zip; by rewrite !length_map|].
    split; [by rewrite rezip_length, length_map|].
    apply rezip_row_numbers.
Qed.

End SnowflakeTheorems.

(** An instance: rows numbered 7, 3 and 42 come back numbered 7, 3 and
    42, in that order. *)
Lemma snowflake_rows_keep_numbers_witness :
  let this := Client.new_SkyflowClient
    (Client.mkConfig (JObj [("apiKey", JStr "sky-test")]) None) in
  let requestConfig :=
    Snowflake.mkRequestConfig (Some "tokenize") "cluster1" "vault1"
      (Some "users") (Some "email") in
  let rows := [JArr [JNum 7; JStr "a@x.com"]; JArr [JNum 3; JStr "b@x.com"];
               JArr [JNum 42; JStr "c@x.com"]] in
  exists h,
    Snowflake.handleTokenize 1 rows requestConfig this = Some h
    /\ (h (Client.initial tt)).1
       = inr [JArr [JNum 7; JStr "a@x.com"]; JArr [JNum 3; JStr "b@x.com"];
              JArr [JNum 42; JStr "c@x.com"]].
Proof.
  intros this requestConfig rows.
  edestruct (proj1 (snowflake_rows_keep_numbers (sdk := Spec.echoing) 1
                      [(JNum 7, JStr "a@x.com"); (JNum 3, JStr "b@x.com");
                       (JNum 42, JStr "c@x.com")] requestConfig this)
               "users" "email"
               (Client._tokenizeBatch this "cluster1" "vault1" "users"
                  [[("email", JStr "a@x.com")]; [("email", JStr "b@x.com")];
                   [("email", JStr "c@x.com")]] [] (Some "PROD"))
               (Client.initial tt))
    as (h & out & Hh & Hrun & Hout & _ & _).
  - reflexivity.
  - discriminate.
  - reflexivity.
  - discriminate.
  - reflexivity.
  - vm_compute. reflexivity.
  - reflexivity.
  - repeat constructor; discriminate.
  - exists h. split; [exact Hh|]. rewrite Hrun, Hout. reflexivity.
Defined.


(** * Further properties *)

(** ** Header helpers *)

Section HeaderUtilsFacts.
Import Headers HeaderUtils Extra.

Lemma firstMatch_assoc lowerName props key value :
  firstMatch lowerName props = Some (key, value) ->
  toLowerCase key = lowerName /\ In (key, value) props
  /\ assoc key props = Some value.
Proof.
  unfold firstMatch. induction props as [|[k v] props IH]; simpl; [done|].
  destruct (String.eqb_spec (toLowerCase k) lowerName) as [Hk|Hk].
  - intros [= -> ->]. rewrite String.eqb_refl. auto.
  - intros Hrest. destruct (IH Hrest) as (Hlow & Hin & Hassoc).
    split; [done|]. split; [by right|].
    destruct (String.eqb_spec k key) as [->|_]; [done|]. exact Hassoc.
Qed.

Lemma find_keys_firstMatch lowerName props :
  find (fun k => String.eqb (toLowerCase k) lowerName) (map fst props)
  = fst <$> firstMatch lowerName props.
Proof.
  unfold firstMatch. induction props as [|[k v] props IH]; simpl; [done|].
  by destruct (String.eqb (toLowerCase k) lowerName).
Qed.

(** The lookup on an object, entry by entry. *)
Lemma getHeader_object props name :
  getHeader (JObj props) name
  = match firstMatch (toLowerCase name) props with
    | Some (key, value) => if String.eqb key EmptyString then JNull else value
    | None => JNull
    end.
Proof.
  unfold getHeader. simpl. unfold Object_keys. simpl.
  rewrite find_keys_firstMatch.
  destruct (firstMatch (toLowerCase name) props) as [[key value]|] eqn:Hfirst;
    simpl; [|done].
  destruct (firstMatch_assoc _ _ _ _ Hfirst) as (_ & _ & Hassoc).
  destruct (String.eqb key EmptyString); simpl; [done|].
  unfold prop. simpl. by rewrite Hassoc.
Qed.

(** X1. When several keys of the headers object match the name
    case-insensitively, the lookup answers with the value of the first
    of them in enumeration order; later matches are shadowed. *)
Theorem getHeader_first_match_wins before key value after name :
  key <> EmptyString ->
  toLowerCase key = toLowerCase name ->
  (forall k v, In (k, v) before -> toLowerCase k <> toLowerCase name) ->
  getHeader (JObj (before ++ (key, value) :: after)) name = value.
Proof.
  intros Hkey Hmatch Hbefore. rewrite getHeader_object.
  assert (Hfirst : firstMatch (toLowerCase name) (before ++ (key, value) :: after)
                   = Some (key, value)).
  { unfold firstMatch. induction before as [|[k v] before IH]; simpl.
    - rewrite Hmatch. by rewrite String.eqb_refl.
    - destruct (String.eqb_spec (toLowerCase k) (toLowerCase name)) as [Hk|_].
      + by destruct (Hbefore k v (or_introl eq_refl)).
      + apply IH. intros k' v' Hin. apply (Hbefore k' v'). by right. }
  rewrite Hfirst. apply String.eqb_neq in Hkey. by rewrite Hkey.
Qed.






End HeaderUtilsFacts.

(** An instance: of two spellings of one header, the first is read. *)
Lemma getHeader_first_match_wins_witness :
  Headers.getHeader
    (JObj ([("Content-Type", JStr "application/json")]
           ++ ("X-Skyflow-Operation", JStr "tokenize")
           :: [("x-skyflow-operation", JStr "detokenize")]))
    "X-SKYFLOW-OPERATION"
  = JStr "tokenize".
Proof.
  apply getHeader_first_match_wins.
  - discriminate.
  - reflexivity.
  - intros k v [[= <- <-]|[]]. discriminate.
Defined.


Section ContextHeaderFacts.
Import Headers HeaderUtils Extra.




End ContextHeaderFacts.


(** ** The other validators *)

Section ValidatorsFacts.
Import Client Validators.

Lemma member_inr body k v :
  member body k = inr v <-> body <> JUndefined /\ body <> JNull /\ prop body k = v.
Proof.
  unfold member. destruct body; simpl; split;
    try (intros [= <-]; repeat split; discriminate);
    try (intros (Hu & Hn & <-); done); try done.
Qed.

Lemma prop_array_not_nullish body k items :
  prop body k = JArr items -> body <> JUndefined /\ body <> JNull.
Proof.
  intros Hprop. split; intros ->; unfold prop in Hprop; simpl in Hprop;
    by destruct (String.eqb k "length").
Qed.

Lemma checkRecord_ok record index :
  checkRecord record index = inr tt <->
  typeof_object record = true /\ record <> JNull /\ Object_keys record <> [].
Proof.
  unfold checkRecord.
  destruct (typeof_object record) eqn:Hobj; simpl; [|by split; [|intros (? & _)]].
  destruct record; try discriminate; simpl.
  - split; [done | by intros (_ & Hn & _)].
  - destruct (Object_keys (JArr items)) eqn:Hkeys; simpl;
      split; try done; by intros (_ & _ & ?).
  - destruct (Object_keys (JObj props)) eqn:Hkeys; simpl;
      split; try done; by intros (_ & _ & ?).
Qed.

(** X5. [validateTokenizeRequest] accepts a body exactly when its
    [records] member is a non-empty array each of whose elements is a
    non-null object (an array counts as one) with at least one key. *)
Theorem validateTokenizeRequest_accepts body :
  validateTokenizeRequest body = inr tt <->
  exists items,
    prop body "records" = JArr items /\ items <> []
    /\ forall record, In record items ->
         typeof_object record = true /\ record <> JNull
         /\ Object_keys record <> [].
Proof.
  unfold validateTokenizeRequest. split.
  - destruct (member body "records") as [e|records] eqn:Hmember; [done|].
    apply member_inr in Hmember as (_ & _ & Hprop). simpl.
    destruct records as [| | | | |items|]; try done.
    destruct (Nat.eqb_spec (length items) 0) as [|Hlen]; [done|].
    intros Hall. exists items. split; [done|]. split; [by destruct items|].
    intros record Hin. apply list_elem_of_In in Hin.
    apply list_elem_of_lookup in Hin as [j Hj].
    apply (checkRecord_ok record (0 + j)).
    by apply (proj1 (forEachFrom_ok checkRecord items 0)).
  - intros (items & Hprop & Hne & Hall).
    destruct (prop_array_not_nullish _ _ _ Hprop) as [Hu Hn].
    rewrite (proj2 (member_inr body "records" (JArr items))) by done. simpl.
    destruct (Nat.eqb_spec (length items) 0) as [Hlen|_];
      [by destruct items|].
    apply forEachFrom_ok. intros j record Hj.
    apply checkRecord_ok, Hall.
    apply list_elem_of_In, list_elem_of_lookup. eauto.
Qed.

Lemma isValidRedactionType_spec v :
  isValidRedactionType v = true <->
  exists name, v = JStr name /\ In name validRedactionTypes.
Proof.
  unfold isValidRedactionType, includes. split.
  - destruct v; try done. intros Hex.
    apply existsb_exists in Hex as (name & Hin & Heq).
    apply String.eqb_eq in Heq. subst. eauto.
  - intros (name & -> & Hin). apply existsb_exists. exists name.
    split; [done|]. apply String.eqb_refl.
Qed.

(** X6. [validateDetokenizeRequest] accepts a body exactly when its
    [tokens] member is a non-empty array, whatever the tokens are, and
    its redaction type, when [options] carries a truthy one, is one of
    the four mode names. *)
Theorem validateDetokenizeRequest_accepts body :
  validateDetokenizeRequest body = inr tt <->
  exists items,
    prop body "tokens" = JArr items /\ items <> []
    /\ (truthy (prop body "options") = true ->
        truthy (prop (prop body "options") "redactionType") = true ->
        exists name,
          prop (prop body "options") "redactionType" = JStr name
          /\ In name validRedactionTypes).
Proof.
  unfold validateDetokenizeRequest. split.
  - destruct (member body "tokens") as [e|tokens] eqn:Hmember; [done|].
    apply member_inr in Hmember as (_ & _ & Hprop). simpl.
    destruct tokens as [| | | | |items|]; try done.
    destruct (Nat.eqb_spec (length items) 0) as [|Hlen]; [done|].
    intros Hok. exists items. split; [done|]. split; [by destruct items|].
    intros Hopt Hrt. rewrite Hopt, Hrt in Hok. simpl in Hok.
    destruct (isValidRedactionType _) eqn:Hvalid; [|done].
    by apply isValidRedactionType_spec.
  - intros (items & Hprop & Hne & Hmode).
    destruct (prop_array_not_nullish _ _ _ Hprop) as [Hu Hn].
    rewrite (proj2 (member_inr body "tokens" (JArr items))) by done. simpl.
    destruct (Nat.eqb_spec (length items) 0) as [Hlen|_];
      [by destruct items|].
    destruct (truthy (prop body "options")) eqn:Hopt; simpl; [|done].
    destruct (truthy (prop (prop body "options") "redactionType")) eqn:Hrt;
      simpl; [|done].
    by rewrite (proj2 (isValidRedactionType_spec _) (Hmode eq_refl eq_refl)).
Qed.

End ValidatorsFacts.

(** ** More on the client cache *)

Section MoreCacheFacts.
Import Client Spec Extra.
Context {W : Type} {sdk : Sdk W}.

Implicit Types (s : St W) (this : SkyflowClient).

Lemma getClient_serials this clusterId vaultId env s :
  serials_bounded s ->
  serials_bounded (_getClient this clusterId vaultId env s).2.
Proof.
  intros Hs.
  destruct (_getClient this clusterId vaultId env s) as [r s'] eqn:Hget. simpl.
  destruct (getClient_effect _ _ _ _ _ _ _ Hget)
    as (_ & _ & _ & [[Hc Hk] | (c & Hc & _ & _ & Hins)]); intros k h.
  - rewrite Hk, Hc. apply Hs.
  - rewrite Hins, Hc, length_app. simpl.
    destruct (decide (clientKeyOf clusterId vaultId (default "PROD" env) = k))
      as [<-|Hne].
    + rewrite lookup_insert_eq. intros [= <-]. simpl. lia.
    + rewrite lookup_insert_ne by done. intros Hk.
      specialize (Hs k h Hk). lia.
Qed.

(** X7. [destroy()] forgets every handle: a triple that was resolved
    before is constructed again by its next resolution, and the new
    handle is not the one handed out before. *)
Theorem destroy_rebuilds this clusterId vaultId env s h s1 h' s2 :
  serials_bounded s ->
  _getClient this clusterId vaultId env s = (inr h, s1) ->
  _getClient this clusterId vaultId env (destroy s1) = (inr h', s2) ->
  h' <> h
  /\ serial h' = length (constructed s1)
  /\ constructed s2 = constructed s1 ++ [sk_config h']
  /\ clients s2
     = {[clientKeyOf clusterId vaultId (default "PROD" env) := h']}.
Proof.
  intros Hs Hfirst Hagain.
  pose proof (getClient_serials this clusterId vaultId env s Hs) as Hs1.
  rewrite Hfirst in Hs1. simpl in Hs1.
  destruct (getClient_effect _ _ _ _ _ _ _ Hfirst) as (_ & _ & Hret & _).
  destruct (Hret h eq_refl) as [_ Hkey]. specialize (Hs1 _ _ Hkey).
  destruct (getClient_effect _ _ _ _ _ _ _ Hagain)
    as (_ & _ & Hret' & [[Hc Hk] | (c & Hc & _ & _ & Hins)]).
  - destruct (Hret' h' eq_refl) as [_ Hkey'].
    rewrite Hk in Hkey'. simpl in Hkey'. by rewrite lookup_empty in Hkey'.
  - destruct (Hret' h' eq_refl) as [_ Hkey'].
    rewrite Hins, lookup_insert_eq in Hkey'. injection Hkey' as <-.
    simpl in *. split; [intros <-; simpl in Hs1; lia|].
    split; [done|]. split; [done|]. by rewrite Hins, insert_empty.
Qed.

(** X8. The cache key is the three identifiers joined by colons, so two
    different triples can have one key. The second of two such triples
    to be resolved is then given the handle of the first, and nothing is
    constructed for it. *)
Theorem cache_key_collision this c1 v1 env1 c2 v2 env2 s h s1 :
  clientKeyOf c1 v1 (default "PROD" env1)
  = clientKeyOf c2 v2 (default "PROD" env2) ->
  includes validEnvironments (default "PROD" env2) = true ->
  _getClient this c1 v1 env1 s = (inr h, s1) ->
  _getClient this c2 v2 env2 s1 = (inr h, s1).
Proof.
  intros Hkey Hval Hfirst.
  destruct (getClient_effect _ _ _ _ _ _ _ Hfirst) as (_ & _ & Hret & _).
  destruct (Hret h eq_refl) as [_ Hcached].
  apply getClient_hit; [done|]. by rewrite <- Hkey.
Qed.

End MoreCacheFacts.

(** An instance: a cluster named [a:b] with vault [c], then cluster [a]
    with vault [b:c]. *)
Lemma cache_key_collision_witness :
  let this := Client.new_SkyflowClient
                (Client.mkConfig (JObj [("apiKey", JStr "sky-test")]) None) in
  let s1 := (Client._getClient this "a:b" "c" None (Client.initial tt)).2 in
  exists h,
    Client._getClient this "a" "b:c" None s1 = (inr h, s1)
    /\ Spec.tripleOf (Client.sk_config h) = [("a:b", "c", "PROD")].
Proof.
  intros this s1.
  assert (Hfirst : exists h,
            Client._getClient this "a:b" "c" None (Client.initial tt) = (inr h, s1)
            /\ Spec.tripleOf (Client.sk_config h) = [("a:b", "c", "PROD")]).
  { eexists. split; [vm_compute; reflexivity | reflexivity]. }
  destruct Hfirst as (h & Hfirst & Hconfig).
  exists h. split; [|exact Hconfig].
  apply (cache_key_collision (sdk := Spec.echoing) this "a:b" "c" None
           "a" "b:c" None (Client.initial tt) h s1);
    [reflexivity | reflexivity | exact Hfirst].
Defined.

(** An instance: a fresh client, one triple, [destroy()], the triple
    again. *)
Lemma destroy_rebuilds_witness :
  let this := Client.new_SkyflowClient
                (Client.mkConfig (JObj [("apiKey", JStr "sky-test")]) None) in
  let first := Client._getClient this "cluster1" "vault1" None (Client.initial tt) in
  let again := Client._getClient this "cluster1" "vault1" None
                 (Client.destroy first.2) in
  first.1 <> again.1 /\ length (Client.constructed again.2) = 2%nat.
Proof.
  intros this first again.
  assert (Hfirst : exists h, first = (inr h, first.2))
    by (eexists; vm_compute; reflexivity).
  assert (Hagain : exists h', again = (inr h', again.2))
    by (eexists; vm_compute; reflexivity).
  destruct Hfirst as (h & Hfirst). destruct Hagain as (h' & Hagain).
  destruct (destroy_rebuilds (sdk := Spec.echoing) this "cluster1" "vault1" None
              (Client.initial tt) h first.2 h' again.2)
    as (Hne & _ & Hlog & _).
  - intros k x Hk. simpl in Hk. by rewrite lookup_empty in Hk.
  - exact Hfirst.
  - exact Hagain.
  - rewrite Hfirst, Hagain. simpl. split; [congruence|].
    rewrite Hagain in Hlog. simpl in Hlog. rewrite Hlog, length_app.
    by vm_compute.
Defined.

Section KeyFacts.
Import Client Spec Extra.

Lemma count_of_append ch x y :
  count_of ch (x +:+ y) = (count_of ch x + count_of ch y)%nat.
Proof. induction x as [|c x IH]; simpl; [done|]. rewrite IH. lia. Qed.

Lemma free_of_count ch s : free_of ch s = true <-> count_of ch s = 0%nat.
Proof.
  induction s as [|c s IH]; simpl; [done|].
  destruct (Ascii.eqb c ch); simpl; [split; [done|lia]|]. exact IH.
Qed.

Lemma append_free_inj ch x y r1 r2 :
  free_of ch x = true -> free_of ch y = true ->
  x +:+ String ch r1 = y +:+ String ch r2 -> x = y /\ r1 = r2.
Proof.
  revert y. induction x as [|c x IH]; intros [|d y]; simpl; intros Hx Hy Heq.
  - by injection Heq.
  - injection Heq as <- _. by rewrite Ascii.eqb_refl in Hy.
  - injection Heq as -> _. by rewrite Ascii.eqb_refl in Hx.
  - injection Heq as -> Heq.
    apply andb_true_iff in Hx as [_ Hx]. apply andb_true_iff in Hy as [_ Hy].
    destruct (IH y Hx Hy Heq) as [-> ->]. done.
Qed.

Lemma clientKeyOf_unfold c v e :
  clientKeyOf c v e = c +:+ String ":"%char (v +:+ String ":"%char e).
Proof. reflexivity. Qed.

(** A key made of colon-free identifiers is the key of no other
    triple. *)
Lemma clientKeyOf_inj c v e c0 v0 e0 :
  colon_free c = true -> colon_free v = true -> colon_free e = true ->
  clientKeyOf c v e = clientKeyOf c0 v0 e0 ->
  c0 = c /\ v0 = v /\ e0 = e.
Proof.
  unfold colon_free. intros Hc Hv He Hkey.
  assert (Hcount : (count_of ":"%char c0 + count_of ":"%char v0
                    + count_of ":"%char e0 = 0)%nat).
  { apply (f_equal (count_of ":"%char)) in Hkey.
    rewrite !clientKeyOf_unfold in Hkey.
    rewrite !count_of_append in Hkey. simpl in Hkey.
    rewrite !count_of_append in Hkey. simpl in Hkey.
    apply free_of_count in Hc, Hv, He. lia. }
  assert (Hc0 : free_of ":"%char c0 = true) by (apply free_of_count; lia).
  assert (Hv0 : free_of ":"%char v0 = true) by (apply free_of_count; lia).
  rewrite !clientKeyOf_unfold in Hkey.
  destruct (append_free_inj _ _ _ _ _ Hc Hc0 Hkey) as [-> Hrest].
  destruct (append_free_inj _ _ _ _ _ Hv Hv0 Hrest) as [-> ->]. done.
Qed.

Lemma valid_environment_colon_free env :
  includes validEnvironments env = true -> colon_free env = true.
Proof.
  unfold includes. simpl.
  destruct (String.eqb_spec env "SANDBOX") as [->|_]; [done|].
  destruct (String.eqb_spec env "PROD") as [->|_]; [done|]. done.
Qed.

End KeyFacts.

Section FaithfulCache.
Import Client Spec Extra.
Context {W : Type} {sdk : Sdk W}.

Implicit Types (s : St W) (this : SkyflowClient).

Lemma getClient_faithful this clusterId vaultId env s :
  cache_faithful s ->
  cache_faithful (_getClient this clusterId vaultId env s).2.
Proof.
  intros Hs.
  destruct (_getClient this clusterId vaultId env s) as [r s'] eqn:Hget. simpl.
  destruct (getClient_effect _ _ _ _ _ _ _ Hget)
    as (_ & _ & _ & [[_ Hk] | (cfg & _ & Htriple & _ & Hins)]);
    intros c v e h Hc Hv He.
  - rewrite Hk. by apply Hs.
  - rewrite Hins.
    destruct (decide (clientKeyOf clusterId vaultId (default "PROD" env)
                      = clientKeyOf c v e)) as [Heq|Hne].
    + rewrite Heq, lookup_insert_eq. intros [= <-]. simpl.
      symmetry in Heq.
      destruct (clientKeyOf_inj _ _ _ _ _ _ Hc Hv He Heq) as (Hc' & Hv' & He').
      by rewrite Htriple, Hc', Hv', He'.
    + rewrite lookup_insert_ne by done. by apply Hs.
Qed.

Lemma resolveAll_faithful this requests s :
  cache_faithful s -> cache_faithful (resolveAll this requests s).
Proof.
  revert s. induction requests as [|[[c v] e] rest IH]; intros s Hs; simpl; [done|].
  apply IH. by apply getClient_faithful.
Qed.

(** X9. From a fresh client and through any resolutions whatever, a
    resolution of a cluster and a vault whose identifiers hold no colon
    returns a handle configured for exactly the cluster, the vault and
    the environment asked for. *)
Theorem colon_free_triple_gets_its_handle this (w : W) requests
  clusterId vaultId env h s' :
  colon_free clusterId = true -> colon_free vaultId = true ->
  _getClient this clusterId vaultId env (resolveAll this requests (initial w))
  = (inr h, s') ->
  tripleOf (sk_config h) = [(clusterId, vaultId, default "PROD" env)].
Proof.
  intros Hc Hv Hget.
  assert (Hfaithful : cache_faithful s').
  { pose proof (getClient_faithful this clusterId vaultId env
                  (resolveAll this requests (initial w))) as H.
    rewrite Hget in H. apply H, resolveAll_faithful.
    intros c v e x _ _ _ Hk. simpl in Hk. by rewrite lookup_empty in Hk. }
  destruct (getClient_effect _ _ _ _ _ _ _ Hget) as (_ & _ & Hret & _).
  destruct (Hret h eq_refl) as [Hval Hkey].
  apply (Hfaithful _ _ _ _ Hc Hv (valid_environment_colon_free _ Hval) Hkey).
Qed.

End FaithfulCache.

(** An instance: after a colliding pair of triples, a colon-free triple
    still gets a handle of its own. *)
Lemma colon_free_triple_gets_its_handle_witness :
  let this := Client.new_SkyflowClient
                (Client.mkConfig (JObj [("apiKey", JStr "sky-test")]) None) in
  let s := Spec.resolveAll this [("a:b", "c", None); ("a", "b:c", None)]
             (Client.initial tt) in
  exists h s',
    Client._getClient this "cluster1" "vault1" (Some "SANDBOX") s = (inr h, s')
    /\ Spec.tripleOf (Client.sk_config h) = [("cluster1", "vault1", "SANDBOX")].
Proof.
  intros this s.
  assert (Hget : exists h s',
            Client._getClient this "cluster1" "vault1" (Some "SANDBOX") s
            = (inr h, s')) by (eexists _, _; vm_compute; reflexivity).
  destruct Hget as (h & s' & Hget). exists h, s'. split; [exact Hget|].
  apply (colon_free_triple_gets_its_handle (sdk := Spec.echoing) this tt
           [("a:b", "c", None); ("a", "b:c", None)]
           "cluster1" "vault1" (Some "SANDBOX") h s');
    [reflexivity | reflexivity | exact Hget].
Defined.

(** ** More on the batched dispatch *)

Section MoreDispatchFacts.
Import Client Spec Extra.
Context {W : Type} {sdk : Sdk W}.

Implicit Types (s : St W) (this : SkyflowClient).

(** One per-batch call, in full: the cache only grows; either the
    resolution of the client throws and nothing is sent, or the request
    of the batch is sent through the handle cached for the triple, and
    an error thrown from there on is a plain [Error] with the method's
    prefix. *)
Lemma batchCall_effect (op : BatchedOp) this clusterId vaultId env batch s r s' :
  batchCall op this clusterId vaultId env batch s = (r, s') ->
  (forall k h, clients s !! k = Some h -> clients s' !! k = Some h)
  /\ ((sent s' = sent s
       /\ exists e, r = inl e
            /\ _getClient this clusterId vaultId (Some (default "PROD" env)) s
               = (inl e, s'))
      \/ (exists client,
            clients s' !! clientKeyOf clusterId vaultId (default "PROD" env)
            = Some client
            /\ includes validEnvironments (default "PROD" env) = true
            /\ sent s' = sent s ++ [mkSdkCall client vaultId (requestOf op batch)]
            /\ forall e, r = inl e ->
                 exists msg, e = Error (errorPrefix op +:+ msg))).
Proof.
  destruct op; simpl;
    unfold _tokenizeBatch, _tokenizeByotBatch, _detokenizeBatch;
    unfold mbind at 1; unfold M_bind at 1;
    destruct (_getClient _ _ _ _ s) as [[e|client] s1] eqn:Hget;
    destruct (getClient_effect _ _ _ _ _ _ _ Hget) as (Hsent & Hkeep & Hret & _);
    simpl in Hret;
    try (intros [= <- <-]; split; [exact Hkeep|]; left; split; [exact Hsent|];
         eauto; fail);
    destruct (Hret client eq_refl) as [Hval Hkey];
    unfold try_catch, mbind, M_bind, send, liftE, mret, M_ret, throw;
    destruct (sdk_send _ (backend s1)) as [[e|response] w] eqn:Hsend;
    try destruct (mapE tokenValue _) as [e'|values];
    intros [= <- <-]; (split; [exact Hkeep|]); right; exists client; simpl;
    rewrite Hsent; repeat split; try done;
    intros e0 [= <-]; eauto.
Qed.

(** X10. With an environment that is not SANDBOX or PROD, a batched
    operation and a query throw the error of the resolution and leave
    the state as it was: no handle is constructed or cached and nothing
    is sent. *)
Theorem invalid_environment_sends_nothing (op : BatchedOp) this clusterId vaultId
  env fuel (items : list (itemT op)) sqlQuery :
  includes validEnvironments (default "PROD" env) = false ->
  0 < orDefault25 (configuredBatchSize op this) ->
  (length items < fuel)%nat ->
  exists msg,
    (exists m, run op fuel this clusterId vaultId env items = Some m
               /\ forall s, m s = (inl (Error msg), s))
    /\ forall s, query this clusterId vaultId sqlQuery env s = (inl (Error msg), s).
Proof.
  intros Hinv Hpos Hfuel.
  set (msg := "Invalid environment: " +:+ default "PROD" env
              +:+ ". Must be one of: " +:+ join ", " validEnvironments).
  assert (Hget : forall e s, default "PROD" e = default "PROD" env ->
            _getClient this clusterId vaultId e s = (inl (Error msg), s)).
  { intros e s He. unfold _getClient. by rewrite He, Hinv. }
  assert (Hcall : forall batch s,
            batchCall op this clusterId vaultId env batch s = (inl (Error msg), s)).
  { intros batch s. destruct op; simpl;
      unfold _tokenizeBatch, _tokenizeByotBatch, _detokenizeBatch;
      unfold mbind at 1; unfold M_bind at 1; by rewrite Hget. }
  exists msg. split.
  - destruct (Z.le_gt_cases (Z.of_nat (length items))
                (orDefault25 (configuredBatchSize op this))) as [Hle|Hgt].
    + eexists. split; [by apply run_small|]. apply Hcall.
    + eexists. split; [by apply run_large|]. intros s.
      rewrite processBatches_assemble.
      destruct (chunks _ items) as [|c cs] eqn:Hchunks.
      * apply (f_equal length) in Hchunks. rewrite length_chunks in Hchunks.
        assert (0 < ceil_div (length items)
                      (Z.to_nat (orDefault25 (configuredBatchSize op this))))%nat
          by (apply ceil_div_lt; lia).
        simpl in Hchunks. lia.
      * by rewrite mapM_cons, Hcall.
  - intros s. unfold query. unfold mbind at 1; unfold M_bind at 1.
    by rewrite Hget.
Qed.

Lemma mapM_effect (op : BatchedOp) this clusterId vaultId env batches s r s' :
  mapM (batchCall op this clusterId vaultId env) batches s = (r, s') ->
  (forall k h, clients s !! k = Some h -> clients s' !! k = Some h)
  /\ exists calls,
       sent s' = sent s ++ calls
       /\ (forall call, In call calls ->
             call_vaultId call = vaultId
             /\ clients s' !! clientKeyOf clusterId vaultId (default "PROD" env)
                = Some (call_client call))
       /\ (forall e, r = inl e ->
             (calls = []
              /\ _getClient this clusterId vaultId (Some (default "PROD" env)) s
                 = (inl e, s'))
             \/ exists msg, e = Error (errorPrefix op +:+ msg)).
Proof.
  revert s r s'. induction batches as [|batch rest IH]; intros s r s'.
  - rewrite mapM_nil. intros [= <- <-]. split; [done|].
    exists []. rewrite app_nil_r. split; [done|].
    split; [by intros call []|]. by intros e [=].
  - rewrite mapM_cons.
    destruct (batchCall _ _ _ _ _ batch s) as [[e|r0] s1] eqn:Hcall;
      destruct (batchCall_effect _ _ _ _ _ _ _ _ _ Hcall)
        as (Hkeep & [(Hsent & e0 & Hr & Hget)
                    |(client & Hkey & Hval & Hsent & Hwrapped)]);
      try discriminate.
    + intros [= <- <-]. injection Hr as <-. split; [done|].
      exists []. rewrite app_nil_r. split; [done|].
      split; [by intros call []|].
      intros e0 [= <-]. by left.
    + intros [= <- <-]. split; [done|].
      exists [mkSdkCall client vaultId (requestOf op batch)].
      split; [done|]. split.
      * intros call [<-|[]]. by split.
      * intros e0 [= <-]. right. by apply Hwrapped.
    + destruct (mapM (batchCall op this clusterId vaultId env) rest s1)
        as [[e|rs] s2] eqn:Hrest;
        intros [= <- <-];
        destruct (IH _ _ _ Hrest) as (Hkeep' & calls & Hcalls & Hall & Herr);
        (split; [by auto|]);
        exists (mkSdkCall client vaultId (requestOf op batch) :: calls);
        (split; [rewrite Hcalls, Hsent; by rewrite <- app_assoc|]);
        (split; [intros call [<-|Hin]; [split; [done|by apply Hkeep']|by apply Hall]|]).
      * intros e0 [= <-]. right.
        destruct (Herr e eq_refl) as [[_ Hget]|Hmsg]; [|done].
        rewrite (getClient_hit this clusterId vaultId (Some (default "PROD" env))
                   s1 client Hval Hkey) in Hget.
        discriminate.
      * intros e0 [=].
Qed.

(** The two shapes of a dispatching method that returns. *)
Lemma run_shape (op : BatchedOp) fuel this clusterId vaultId env items m :
  run op fuel this clusterId vaultId env items = Some m ->
  m = batchCall op this clusterId vaultId env items
  \/ exists batches,
       m = processBatches (batchCall op this clusterId vaultId env) batches [] [].
Proof.
  intros Hrun.
  destruct op; simpl in Hrun; unfold tokenize, tokenizeByot, detokenize in Hrun;
    (destruct (_ <=? _); [injection Hrun as <-; by left|]);
    (destruct (splitLoop _ _ _ _ _) as [batches|]; [|done]);
    injection Hrun as <-; right; by exists batches.
Qed.

(** X11. All the requests of one operation go to the vault asked for,
    through one and the same client handle: the handle that the cache
    holds for the triple when the operation ends. *)
Theorem dispatch_uses_one_handle (op : BatchedOp) fuel this clusterId vaultId env
  (items : list (itemT op)) m s r s' :
  run op fuel this clusterId vaultId env items = Some m ->
  m s = (r, s') ->
  exists calls,
    sent s' = sent s ++ calls
    /\ forall call, In call calls ->
         call_vaultId call = vaultId
         /\ clients s' !! clientKeyOf clusterId vaultId (default "PROD" env)
            = Some (call_client call).
Proof.
  intros Hrun Hm. destruct (run_shape _ _ _ _ _ _ _ _ Hrun) as [-> | (batches & ->)].
  - destruct (batchCall_effect _ _ _ _ _ _ _ _ _ Hm)
      as (_ & [(Hsent & _)|(client & Hkey & _ & Hsent & _)]).
    + exists []. rewrite app_nil_r. split; [done|]. by intros call [].
    + eexists. split; [exact Hsent|]. intros call [<-|[]]. by split.
  - rewrite processBatches_assemble in Hm.
    destruct (mapM (batchCall op this clusterId vaultId env) batches s)
      as [[e|rs] s0] eqn:Hall;
      injection Hm as <- <-;
      destruct (mapM_effect _ _ _ _ _ _ _ _ _ Hall) as (_ & calls & Hsent & Hcalls & _);
      exists calls; by split.
Qed.

(** X12. An error that a batched operation throws is either the error
    of the resolution of its client, thrown before anything is sent, or
    a plain [Error] whose message is the method's prefix followed by the
    message of what was caught: the class of a backend error does not
    reach the caller. *)
Theorem dispatch_errors_are_wrapped (op : BatchedOp) fuel this clusterId vaultId
  env (items : list (itemT op)) m s e s' :
  run op fuel this clusterId vaultId env items = Some m ->
  m s = (inl e, s') ->
  (sent s' = sent s
   /\ _getClient this clusterId vaultId (Some (default "PROD" env)) s = (inl e, s'))
  \/ exists msg, e = Error (errorPrefix op +:+ msg).
Proof.
  intros Hrun Hm. destruct (run_shape _ _ _ _ _ _ _ _ Hrun) as [-> | (batches & ->)].
  - destruct (batchCall_effect _ _ _ _ _ _ _ _ _ Hm)
      as (_ & [(Hsent & e0 & [= <-] & Hget)|(client & _ & _ & _ & Hwrapped)]).
    + by left.
    + right. by apply Hwrapped.
  - rewrite processBatches_assemble in Hm.
    destruct (mapM (batchCall op this clusterId vaultId env) batches s)
      as [[e0|rs] s0] eqn:Hall; [|done].
    injection Hm as <- <-.
    destruct (mapM_effect _ _ _ _ _ _ _ _ _ Hall) as (_ & calls & Hsent & _ & Herr).
    destruct (Herr e0 eq_refl) as [[-> Hget]|Hmsg]; [|by right].
    left. by rewrite Hsent, app_nil_r.
Qed.

End MoreDispatchFacts.

(** An instance: the environment DEV. *)
Lemma invalid_environment_sends_nothing_witness :
  let this := Client.new_SkyflowClient
                (Client.mkConfig (JObj [("apiKey", JStr "sky-test")]) None) in
  exists msg m,
    Client.detokenize 3 this "cluster1" "vault1" [JStr "t1"; JStr "t2"] []
      (Some "DEV") = Some m
    /\ m (Client.initial tt) = (inl (Error msg), Client.initial tt)
    /\ Client.query this "cluster1" "vault1" "SELECT 1" (Some "DEV")
         (Client.initial tt) = (inl (Error msg), Client.initial tt).
Proof.
  intros this.
  destruct (invalid_environment_sends_nothing (sdk := Spec.echoing)
              (Spec.OpDetokenize []) this "cluster1" "vault1" (Some "DEV") 3
              [JStr "t1"; JStr "t2"] "SELECT 1")
    as (msg & (m & Hrun & Hm) & Hquery); [reflexivity | reflexivity | simpl; lia |].
  exists msg, m. split; [exact Hrun|]. split; [apply Hm | apply Hquery].
Defined.

(** An instance: three tokens in two batches. *)
Lemma dispatch_uses_one_handle_witness :
  let this := Client.new_SkyflowClient
    (Client.mkConfig (JObj [("apiKey", JStr "sky-test")])
       (Some (Client.mkBatching None (Some (Client.mkOpBatching (Some 2)))))) in
  let tokens := [JStr "t1"; JStr "t2"; JStr "t3"] in
  exists m,
    Client.detokenize 4 this "cluster1" "vault1" tokens [] None = Some m
    /\ let s' := (m (Client.initial tt)).2 in
       length (Client.sent s') = 2%nat
       /\ forall call, In call (Client.sent s') ->
            Client.clients s' !! Client.clientKeyOf "cluster1" "vault1" "PROD"
            = Some (Client.call_client call).
Proof.
  intros this tokens.
  assert (Hrun : exists m,
            Client.detokenize 4 this "cluster1" "vault1" tokens [] None = Some m)
    by (eexists; reflexivity).
  destruct Hrun as (m & Hrun). exists m. split; [exact Hrun|].
  destruct (dispatch_uses_one_handle (sdk := Spec.echoing) (Spec.OpDetokenize [])
              4 this "cluster1" "vault1" None tokens m (Client.initial tt)
              (m (Client.initial tt)).1 (m (Client.initial tt)).2 Hrun
              (surjective_pairing _)) as (calls & Hsent & Hcalls).
  simpl in Hsent. split.
  - revert Hrun. vm_compute. by intros [= <-].
  - intros call Hin. rewrite Hsent in Hin. by apply Hcalls.
Defined.

(** An instance: the second of two batches is rejected. *)
Lemma dispatch_errors_are_wrapped_witness :
  let this := Client.new_SkyflowClient
    (Client.mkConfig (JObj [("apiKey", JStr "sky-test")])
       (Some (Client.mkBatching None (Some (Client.mkOpBatching (Some 2)))))) in
  let tokens := [JStr "t1"; JStr "t2"; JStr "t3"] in
  let script := [inr (Client.mkSdkResponse (Some []) None)] in
  exists m e s',
    Client.detokenize 4 this "cluster1" "vault1" tokens [] None = Some m
    /\ m (Client.initial script) = (inl e, s')
    /\ exists msg, e = Error ("Detokenization failed: " +:+ msg).
Proof.
  intros this tokens script.
  assert (Hrun : exists m,
            Client.detokenize 4 this "cluster1" "vault1" tokens [] None = Some m
            /\ exists e s', m (Client.initial script) = (inl e, s')
                            /\ length (Client.sent s') = 2%nat).
  { eexists. split; [reflexivity|]. eexists _, _.
    split; vm_compute; reflexivity. }
  destruct Hrun as (m & Hrun & e & s' & Hm & Hsent).
  exists m, e, s'. split; [exact Hrun|]. split; [exact Hm|].
  destruct (dispatch_errors_are_wrapped (sdk := Spec.scripted)
              (Spec.OpDetokenize []) 4 this "cluster1" "vault1" None tokens
              m (Client.initial script) e s' Hrun Hm) as [[Hsame _]|Hmsg];
    [|exact Hmsg].
  pose proof (eq_trans (eq_sym Hsent) (f_equal length Hsame)) as Hlen.
  discriminate Hlen.
Defined.

Section BatchEdgeFacts.
Import Client Spec Extra.
Context {W : Type} {sdk : Sdk W}.

Implicit Types (s : St W) (this : SkyflowClient).

Lemma mapE_throws {A B} (f : A -> Exc B) l :
  Exists (fun x => exists e, f x = inl e) l -> exists e, mapE f l = inl e.
Proof.
  induction l as [|a l IH]; intros Hex; [by inversion Hex|]. simpl.
  unfold mbind, Exc_bind, mret, Exc_ret.
  destruct (f a) as [e|y] eqn:Hy; [eauto|].
  inversion Hex as [? ? (e & He)|? ? Hrest]; subst; [congruence|].
  destruct (IH Hrest) as (e & ->). eauto.
Qed.

(** X13. Of each record the backend answers a detokenization with,
    the client returns the token and the value and nothing else, in the
    order of the answer; and one record that is [null] in an answer
    otherwise good makes the whole batch call throw. *)
Theorem detokenizeBatch_keeps_token_and_value this clusterId vaultId env
  (tokens : list JsVal) (options : JsObject) s client s1 response w' :
  _getClient this clusterId vaultId env s = (inr client, s1) ->
  sdk_send (mkSdkCall client vaultId (requestOf (OpDetokenize options) tokens))
           (backend s1) = (inr response, w') ->
  let rows := default [] (resp_fields response) in
  let s' := mkSt (clients s1) (constructed s1)
              (sent s1 ++ [mkSdkCall client vaultId
                             (requestOf (OpDetokenize options) tokens)]) w' in
  (Forall (fun record => record <> JUndefined /\ record <> JNull) rows ->
   _detokenizeBatch this clusterId vaultId tokens options env s
   = (inr (mkBatchResult
             (map (fun record => JObj [("token", prop record "token");
                                       ("value", prop record "value")]) rows)
             (resp_errors response)), s'))
  /\ (Exists (fun record => record = JUndefined \/ record = JNull) rows ->
      exists msg,
        _detokenizeBatch this clusterId vaultId tokens options env s
        = (inl (Error ("Detokenization failed: " +:+ msg)), s')).
Proof.
  intros Hget Hsend rows s'. simpl in Hsend.
  unfold _detokenizeBatch, mbind, M_bind, try_catch, send, liftE, mret, M_ret, throw.
  rewrite Hget, Hsend. fold rows. split.
  - intros Hrows.
    rewrite (mapE_total tokenValue
               (fun record => JObj [("token", prop record "token");
                                    ("value", prop record "value")])); [done|].
    eapply Forall_impl; [exact Hrows|]. intros record [Hu Hn]. by destruct record.
  - intros Hnull.
    destruct (mapE_throws tokenValue rows) as (e & ->); [|by eauto].
    eapply Exists_impl; [exact Hnull|]. intros record [-> | ->]; by eexists.
Qed.

Lemma splitLoop_never_ends {A} fuel (items : list A) (batchSize i : Z) batches :
  batchSize < 0 -> i <= 0 -> items <> [] ->
  splitLoop fuel items batchSize i batches = None.
Proof.
  intros Hneg. revert i batches.
  induction fuel as [|fuel IH]; intros i batches Hi Hne; simpl; [done|].
  destruct (Z.ltb_spec i (Z.of_nat (length items))) as [_|Hge].
  - apply IH; [lia|done].
  - destruct items; [done|]. simpl in Hge. lia.
Qed.

(** X14. A negative configured batch size is taken as it is. With it
    the splitting loop never ends on a non-empty input, whatever the
    fuel; on the empty input the operation returns an empty result
    without resolving a client or sending anything. *)
Theorem negative_batch_size (op : BatchedOp) this clusterId vaultId env fuel
  (items : list (itemT op)) :
  orDefault25 (configuredBatchSize op this) < 0 ->
  (items <> [] -> run op fuel this clusterId vaultId env items = None)
  /\ (items = [] -> (0 < fuel)%nat ->
      exists m,
        run op fuel this clusterId vaultId env items = Some m
        /\ forall s, m s = (inr (mkBatchResult [] None), s)).
Proof.
  intros Hneg.
  assert (Hleb : (Z.of_nat (length items)
                  <=? orDefault25 (configuredBatchSize op this)) = false)
    by (apply Z.leb_gt; lia).
  split.
  - intros Hne.
    destruct op; simpl in *; unfold tokenize, tokenizeByot, detokenize;
      by rewrite Hleb, splitLoop_never_ends.
  - intros -> Hfuel. destruct fuel as [|fuel]; [lia|]. clear Hleb.
    destruct op; simpl in *; unfold tokenize, tokenizeByot, detokenize;
      (destruct (_ <=? _) eqn:Hle;
         [apply Z.leb_le in Hle; simpl in Hle; lia|]);
      simpl; eexists; (split; [reflexivity|done]).
Qed.

Lemma requestData_append (op : BatchedOp) (x y : list (itemT op)) :
  requestData (requestOf op (x ++ y))
  = requestData (requestOf op x) ++ requestData (requestOf op y).
Proof. destruct op; simpl; by rewrite map_app. Qed.

Lemma requestData_concat (op : BatchedOp) (batches : list (list (itemT op))) :
  requestData (requestOf op (concat batches))
  = concat (map (fun batch => requestData (requestOf op batch)) batches).
Proof.
  induction batches as [|batch rest IH]; simpl; [by destruct op|].
  by rewrite requestData_append, IH.
Qed.

Section Elementwise.
Variable answer : JsVal -> JsVal.
Variables (op : BatchedOp) (this : SkyflowClient) (clusterId vaultId : string)
  (env : option string).
Hypothesis constructor_ok : forall config (w : W), sdk_new config w = (None, w).
Hypothesis elementwise :
  forall client batch (w : W),
    sdk_send (mkSdkCall client vaultId (requestOf op batch)) w
    = (inr (mkSdkResponse
              (Some (map answer (requestData (requestOf op batch)))) None), w).
Hypothesis answers_are_records :
  forall d, answer d <> JUndefined /\ answer d <> JNull.
Hypothesis valid_environment :
  includes validEnvironments (default "PROD" env) = true.

Lemma getClient_resolves e s :
  default "PROD" e = default "PROD" env ->
  exists client s1,
    _getClient this clusterId vaultId e s = (inr client, s1)
    /\ backend s1 = backend s.
Proof.
  intros He. unfold _getClient. rewrite He, valid_environment. simpl.
  unfold mbind, M_bind, readClient, new_Skyflow, storeClient, mret, M_ret.
  destruct (clients s !! _) as [client|]; [by eauto|].
  rewrite constructor_ok. simpl. eauto.
Qed.

Lemma batchCall_answered batch s :
  exists s', batchCall op this clusterId vaultId env batch s
             = (inr (answered op answer batch), s').
Proof.
  destruct (getClient_resolves (Some (default "PROD" env)) s eq_refl)
    as (client & s1 & Hget & _).
  pose proof (elementwise client batch (backend s1)) as Hsend.
  revert batch Hsend elementwise. unfold answered.
  destruct op; simpl; intros batch Hsend _;
    unfold _tokenizeBatch, _tokenizeByotBatch, _detokenizeBatch,
      mbind, M_bind, try_catch, send, liftE, mret, M_ret, throw;
    rewrite Hget; simpl in Hsend |- *; rewrite Hsend; simpl.
  - eauto.
  - eauto.
  - rewrite (mapE_total tokenValue
               (fun record => JObj [("token", prop record "token");
                                    ("value", prop record "value")])).
    + rewrite map_map. eauto.
    + apply Forall_forall. intros record Hin.
      apply list_elem_of_In, in_map_iff in Hin as (d & <- & _).
      destruct (answers_are_records d) as [Hu Hn]. by destruct (answer d).
Qed.

Lemma mapM_answered batches s :
  exists s', mapM (batchCall op this clusterId vaultId env) batches s
             = (inr (map (answered op answer) batches), s').
Proof.
  revert s. induction batches as [|batch rest IH]; intros s.
  - rewrite mapM_nil. eauto.
  - rewrite mapM_cons. destruct (batchCall_answered batch s) as (s1 & ->).
    destruct (IH s1) as (s2 & ->). eauto.
Qed.

Lemma assemble_answered batches :
  assemble (map (answered op answer) batches)
  = answered op answer (concat batches).
Proof.
  assert (Herrs : concat (map errorsOf (map (answered op answer) batches)) = []).
  { induction batches as [|b rest IH]; simpl; [done|]. exact IH. }
  unfold assemble. rewrite Herrs.
  unfold answered. rewrite requestData_concat. f_equal.
  induction batches as [|b rest IH]; simpl; [done|].
  by rewrite map_app, IH.
Qed.

(** X15. Batching is transparent over a backend that answers a request
    element by element and reports no error: whatever the positive
    batch size, the operation returns what one call on the whole list
    returns, the answers to the items in input order. *)
Theorem batch_size_is_transparent fuel (items : list (itemT op)) :
  0 < orDefault25 (configuredBatchSize op this) ->
  (length items < fuel)%nat ->
  exists m,
    run op fuel this clusterId vaultId env items = Some m
    /\ forall s, exists s', m s = (inr (answered op answer items), s').
Proof.
  intros Hpos Hfuel.
  destruct (Z.le_gt_cases (Z.of_nat (length items))
              (orDefault25 (configuredBatchSize op this))) as [Hle|Hgt].
  - eexists. split; [by apply run_small|]. intros s. apply batchCall_answered.
  - eexists. split; [by apply run_large|]. intros s.
    rewrite processBatches_assemble.
    destruct (mapM_answered (chunks (Z.to_nat (orDefault25
                (configuredBatchSize op this))) items) s) as (s' & ->).
    exists s'. rewrite assemble_answered, concat_chunks; [done|lia].
Qed.

End Elementwise.

End BatchEdgeFacts.

(** An instance: the member [type] of the answer is not returned. *)
Lemma detokenizeBatch_keeps_token_and_value_witness :
  let this := Client.new_SkyflowClient
                (Client.mkConfig (JObj [("apiKey", JStr "sky-test")]) None) in
  let record := JObj [("token", JStr "t1"); ("value", JStr "v1");
                      ("type", JStr "STRING")] in
  let script := [inr (Client.mkSdkResponse (Some [record]) None)] in
  exists s',
    Client._detokenizeBatch this "cluster1" "vault1" [JStr "t1"] [] None
      (Client.initial script)
    = (inr (Client.mkBatchResult
              [JObj [("token", JStr "t1"); ("value", JStr "v1")]] None), s').
Proof.
  intros this record script.
  destruct (detokenizeBatch_keeps_token_and_value (sdk := Spec.scripted) this
              "cluster1" "vault1" None [JStr "t1"] [] (Client.initial script)
              (Client.mkSkyflow 0
                 (Client.mkSkyflowConfig
                    [Client.mkVaultConfig "vault1" "cluster1" "PROD"
                       (Client.ApiKey (JStr "sky-test"))]
                    Client.LogLevel_ERROR))
              (Client._getClient this "cluster1" "vault1" None
                 (Client.initial script)).2
              (Client.mkSdkResponse (Some [record]) None) [])
    as [Hgood _].
  - vm_compute. reflexivity.
  - reflexivity.
  - eexists. apply Hgood. repeat constructor; discriminate.
Defined.

(** An instance: a batch size of -5 and one record. *)
Lemma negative_batch_size_witness :
  let this := Client.new_SkyflowClient
    (Client.mkConfig (JObj [("apiKey", JStr "sky-test")])
       (Some (Client.mkBatching (Some (Client.mkOpBatching (Some (-5)))) None))) in
  Client.tokenize 1000 this "cluster1" "vault1" "users"
    [[("email", JStr "a@x.com")]] [] None = None.
Proof.
  intros this.
  apply (proj1 (negative_batch_size (sdk := Spec.echoing)
                  (Spec.OpTokenize "users" []) this "cluster1" "vault1" None 1000
                  [[("email", JStr "a@x.com")]] eq_refl)).
  discriminate.
Defined.

(** An instance: batch sizes 1 and 25 over the echoing stub. *)
Lemma batch_size_is_transparent_witness :
  let client size := Client.new_SkyflowClient
    (Client.mkConfig (JObj [("apiKey", JStr "sky-test")])
       (Some (Client.mkBatching None (Some (Client.mkOpBatching (Some size)))))) in
  let tokens := [JStr "t1"; JStr "t2"; JStr "t3"] in
  exists m1 m25,
    Client.detokenize 4 (client 1) "cluster1" "vault1" tokens [] None = Some m1
    /\ Client.detokenize 4 (client 25) "cluster1" "vault1" tokens [] None = Some m25
    /\ (m1 (Client.initial tt)).1 = (m25 (Client.initial tt)).1.
Proof.
  intros client tokens.
  set (answer := fun d => JObj [("token", prop d "token"); ("value", prop d "token")]).
  assert (Hany : forall size, 0 < size ->
            exists m, Client.detokenize 4 (client size) "cluster1" "vault1"
                        tokens [] None = Some m
              /\ forall s, exists s',
                   m s = (inr (Extra.answered (Spec.OpDetokenize []) answer tokens), s')).
  { intros size Hsize.
    apply (batch_size_is_transparent (sdk := Spec.echoing) answer
             (Spec.OpDetokenize []) (client size) "cluster1" "vault1" None).
    - intros config w. reflexivity.
    - intros c batch w. reflexivity.
    - intros d. split; discriminate.
    - reflexivity.
    - simpl. destruct (Z.eqb_spec size 0); lia.
    - simpl. lia. }
  destruct (Hany 1 ltac:(lia)) as (m1 & Hrun1 & Hm1).
  destruct (Hany 25 ltac:(lia)) as (m25 & Hrun25 & Hm25).
  exists m1, m25. split; [exact Hrun1|]. split; [exact Hrun25|].
  destruct (Hm1 (Client.initial tt)) as (s1 & ->).
  destruct (Hm25 (Client.initial tt)) as (s25 & ->). reflexivity.
Defined.

(** ** More on the row-indexed transport *)

Section MoreSnowflakeFacts.
Import Client Spec Snowflake.
Context {W : Type} {sdk : Sdk W}.

Lemma rezip_lookup rowNumbers outputs (i : nat) rowNum :
  rowNumbers !! i = Some rowNum ->
  rezip rowNumbers outputs !! i
  = Some (JArr [rowNum; default JUndefined (outputs !! i)]).
Proof.
  intros Hi. unfold rezip. by rewrite list_lookup_imap, Hi.
Qed.

Lemma members_nullish (k : string) (rows : list JsVal) :
  Exists (fun row => row = JNull \/ row = JUndefined) rows ->
  exists e, mapE (fun row => member row k) rows = inl e
            /\ err_class e = TypeErrorC.
Proof.
  induction rows as [|row rows IH]; intros Hex; [by inversion Hex|]. simpl.
  unfold mbind, Exc_bind, mret, Exc_ret.
  destruct (member row k) as [e|y] eqn:Hy.
  - exists e. split; [done|].
    destruct row; unfold member, throwE, mret, Exc_ret in Hy;
      inversion Hy; reflexivity.
  - inversion Hex as [? ? [-> | ->]|? ? Hrest]; subst; [done..|].
    destruct (IH Hrest) as (e & -> & He). eauto.
Qed.

(** What the handlers make of a resolved client operation. *)
Lemma rows_of_response (rows : list JsVal) (k : string) (response : BatchResult)
  (s' : St W) :
  Forall (fun record => record <> JUndefined /\ record <> JNull)
         (data response) ->
  exists out,
    (tokens ← liftE (mapE (fun record => member record k) (data response));
     mret (rezip (map (fun row => prop row "0") rows) tokens)) s'
    = (inr out, s')
    /\ length out = length rows
    /\ forall (i : nat) row, rows !! i = Some row ->
         out !! i
         = Some (JArr [prop row "0";
                       default JUndefined
                         ((fun record => prop record k) <$> data response !! i)]).
Proof.
  intros Hrecords. rewrite (members_total k _ Hrecords).
  eexists. split; [reflexivity|].
  split; [by rewrite rezip_length, length_map|].
  intros i row Hi.
  rewrite (rezip_lookup _ _ i (prop row "0")) by (by rewrite list_lookup_fmap, Hi).
  by rewrite list_lookup_fmap.
Qed.

(** X16. The handlers answer with one row per input row, whatever the
    number of records the client operation resolved with: row [i] of
    the output is the row number of input row [i] with the output of
    record [i], and [undefined] where the answer has no record [i];
    records beyond the last input row are dropped. *)
Theorem snowflake_one_row_per_input fuel (rows : list JsVal)
  (requestConfig : RequestConfig) (client : SkyflowClient) :
  Forall (fun row => row <> JUndefined /\ row <> JNull) rows ->
  (forall tbl col m (s : St W) response s',
      table requestConfig = Some tbl -> tbl <> EmptyString ->
      columnName requestConfig = Some col -> col <> EmptyString ->
      tokenize fuel client (clusterId requestConfig) (vaultId requestConfig) tbl
        (map (fun row => [(col, prop row "1")]) rows) [] None = Some m ->
      m s = (inr response, s') ->
      Forall (fun record => record <> JUndefined /\ record <> JNull)
             (data response) ->
      exists h out,
        handleTokenize fuel rows requestConfig client = Some h
        /\ h s = (inr out, s')
        /\ length out = length rows
        /\ forall (i : nat) row, rows !! i = Some row ->
             out !! i
             = Some (JArr [prop row "0";
                           default JUndefined
                             ((fun record => prop record col)
                                <$> data response !! i)]))
  /\ (forall m (s : St W) response s',
        detokenize fuel client (clusterId requestConfig) (vaultId requestConfig)
          (map (fun row => prop row "1") rows) [] None = Some m ->
        m s = (inr response, s') ->
        Forall (fun record => record <> JUndefined /\ record <> JNull)
               (data response) ->
        exists h out,
          handleDetokenize fuel rows requestConfig client = Some h
          /\ h s = (inr out, s')
          /\ length out = length rows
          /\ forall (i : nat) row, rows !! i = Some row ->
               out !! i
               = Some (JArr [prop row "0";
                             default JUndefined
                               ((fun record => prop record "value")
                                  <$> data response !! i)])).
Proof.
  intros Hrows.
  pose proof (members_total "0" rows Hrows) as Hnumbers.
  pose proof (members_total "1" rows Hrows) as Hvalues.
  split.
  - intros tbl col m s response s' Htable Htbl Hcolumn Hcol Hrun Hm Hrecords.
    unfold handleTokenize, missing. rewrite Htable, Hcolumn.
    apply String.eqb_neq in Htbl, Hcol. rewrite Htbl, Hcol.
    rewrite Hnumbers, Hvalues, map_map.
    change (default EmptyString (Some tbl)) with tbl.
    change (default EmptyString (Some col)) with col.
    rewrite Hrun. simpl.
    destruct (rows_of_response rows col response s' Hrecords)
      as (out & Hout & Hlen & Hlookup).
    eexists _, out. split; [reflexivity|].
    split; [|done].
    unfold mbind at 1. unfold M_bind. by rewrite Hm.
  - intros m s response s' Hrun Hm Hrecords.
    unfold handleDetokenize. rewrite Hnumbers, Hvalues, Hrun. simpl.
    destruct (rows_of_response rows "value" response s' Hrecords)
      as (out & Hout & Hlen & Hlookup).
    eexists _, out. split; [reflexivity|].
    split; [|done].
    unfold mbind at 1. unfold M_bind. by rewrite Hm.
Qed.

(** X17. A row that is [null] makes either handler throw a [TypeError]
    while it reads the row numbers: no client is resolved and nothing is
    sent, the state is as it was. (The tokenizing handler first checks
    its two headers.) *)
Theorem snowflake_null_row_throws fuel (rows : list JsVal)
  (requestConfig : RequestConfig) (client : SkyflowClient) :
  Exists (fun row => row = JNull \/ row = JUndefined) rows ->
  exists e,
    err_class e = TypeErrorC
    /\ (exists h, handleDetokenize fuel rows requestConfig client = Some h
                  /\ forall s : St W, h s = (inl e, s))
    /\ (missing (table requestConfig) = false ->
        missing (columnName requestConfig) = false ->
        exists h, handleTokenize fuel rows requestConfig client = Some h
                  /\ forall s : St W, h s = (inl e, s)).
Proof.
  intros Hex. destruct (members_nullish "0" rows Hex) as (e & Hthrows & He).
  exists e. split; [done|]. split.
  - unfold handleDetokenize. rewrite Hthrows. by eexists.
  - intros Htable Hcolumn. unfold handleTokenize.
    rewrite Htable, Hcolumn, Hthrows. by eexists.
Qed.

End MoreSnowflakeFacts.

(** An instance: two rows and an answer of one record. *)
Lemma snowflake_one_row_per_input_witness :
  let this := Client.new_SkyflowClient
    (Client.mkConfig (JObj [("apiKey", JStr "sky-test")]) None) in
  let requestConfig :=
    Snowflake.mkRequestConfig (Some "detokenize") "cluster1" "vault1" None None in
  let rows := [JArr [JNum 0; JStr "t1"]; JArr [JNum 1; JStr "t2"]] in
  let script :=
    [inr (Client.mkSdkResponse
            (Some [JObj [("token", JStr "t1"); ("value", JStr "v1")]]) None)] in
  exists h,
    Snowflake.handleDetokenize 1 rows requestConfig this = Some h
    /\ (h (Client.initial script)).1
       = inr [JArr [JNum 0; JStr "v1"]; JArr [JNum 1; JUndefined]].
Proof.
  intros this requestConfig rows script.
  edestruct (proj2 (snowflake_one_row_per_input (sdk := Spec.scripted) 1
                      rows requestConfig this
                      ltac:(repeat constructor; discriminate))
               (Client._detokenizeBatch this "cluster1" "vault1"
                  [JStr "t1"; JStr "t2"] [] (Some "PROD"))
               (Client.initial script))
    as (h & out & Hh & Hrun & Hlen & Hlookup).
  - reflexivity.
  - vm_compute. reflexivity.
  - repeat constructor; discriminate.
  - exists h. split; [exact Hh|]. rewrite Hrun. simpl.
    pose proof (Hlookup 0%nat _ eq_refl) as H0.
    pose proof (Hlookup 1%nat _ eq_refl) as H1.
    destruct out as [|a [|b [|c out]]]; try discriminate Hlen.
    simpl in H0, H1. by simplify_eq.
Defined.

(** An instance: a [null] between two rows. *)
Lemma snowflake_null_row_throws_witness :
  let this := Client.new_SkyflowClient
    (Client.mkConfig (JObj [("apiKey", JStr "sky-test")]) None) in
  let requestConfig :=
    Snowflake.mkRequestConfig (Some "detokenize") "cluster1" "vault1" None None in
  let rows := [JArr [JNum 0; JStr "t1"]; JNull; JArr [JNum 2; JStr "t3"]] in
  exists e h,
    err_class e = TypeErrorC
    /\ Snowflake.handleDetokenize 1 rows requestConfig this = Some h
    /\ h (Client.initial tt) = (inl e, Client.initial tt).
Proof.
  intros this requestConfig rows.
  destruct (snowflake_null_row_throws (sdk := Spec.echoing) 1 rows requestConfig
              this) as (e & He & (h & Hh & Hrun) & _).
  - apply Exists_cons_tl, Exists_cons_hd. by left.
  - exists e, h. split; [exact He|]. split; [exact Hh|]. apply Hrun.
Defined.

(** ** The options of an insert *)

Section InsertOptionFacts.
Import Client Spec.
Context {W : Type} {sdk : Sdk W}.

Lemma requests_of_batches {T} (f : list T -> SdkRequest) calls batches call :
  map call_request calls = map f batches ->
  In call calls -> exists batch, call_request call = f batch.
Proof.
  revert batches. induction calls as [|c calls IH]; intros [|b batches] Hmap Hin;
    try done.
  injection Hmap as Hc Hrest. destruct Hin as [<-|Hin]; [eauto|].
  by apply (IH batches).
Qed.

(** X18. Every request that [tokenize] sends is an insert into the
    table asked for, with tokens returned and without continuing on an
    error. Of an [upsert] option that is an array only the first element
    reaches the backend, the other columns are dropped; a string is
    passed as it is; and any other value (a boolean, a number, an
    object, the empty array, the empty string, none) sets no upsert
    column, without an error. *)
Theorem tokenize_upsert_first_column fuel this clusterId vaultId table
  (records : list JsObject) (options : JsObject) env m (s : St W) r s' :
  tokenize fuel this clusterId vaultId table records options env = Some m ->
  m s = (r, s') ->
  exists calls,
    sent s' = sent s ++ calls
    /\ forall call, In call calls ->
         exists batch o,
           call_request call = Insert table batch o
           /\ returnTokens o = Some true
           /\ continueOnError o = Some false
           /\ tokenMode o = None
           /\ customTokens o = None
           /\ upsertColumn o
              = match prop (JObj options) "upsert" with
                | JStr EmptyString => None
                | JStr column => Some (JStr column)
                | JArr (first :: _) => Some first
                | _ => None
                end.
Proof.
  intros Hrun Hm.
  destruct (run_sends (OpTokenize table options) fuel this clusterId vaultId env
              records m s r s' Hrun Hm) as (calls & batches & Hsent & Hrequests).
  exists calls. split; [exact Hsent|]. intros call Hin.
  destruct (requests_of_batches _ _ _ _ Hrequests Hin) as (batch & ->).
  simpl. eexists _, _. split; [reflexivity|].
  destruct (prop (JObj options) "upsert") as [| |[]|n|[|c column]|[|first more]|props];
    simpl; try done.
  by destruct (n =? 0).
Qed.

End InsertOptionFacts.

(** An instance: an upsert on two columns, three records in batches of
    two. *)
Lemma tokenize_upsert_first_column_witness :
  let this := Client.new_SkyflowClient
    (Client.mkConfig (JObj [("apiKey", JStr "sky-test")])
       (Some (Client.mkBatching (Some (Client.mkOpBatching (Some 2))) None))) in
  let records := [[("email", JStr "a@x.com")]; [("email", JStr "b@x.com")];
                  [("email", JStr "c@x.com")]] in
  let options := [("upsert", JArr [JStr "email"; JStr "phone"])] in
  exists m,
    Client.tokenize 4 this "cluster1" "vault1" "users" records options None = Some m
    /\ exists calls,
         Client.sent (m (Client.initial tt)).2 = calls
         /\ forall call, In call calls ->
              exists batch o,
                Client.call_request call = Client.Insert "users" batch o
                /\ Client.upsertColumn o = Some (JStr "email").
Proof.
  intros this records options.
  eexists. split; [reflexivity|].
  destruct (tokenize_upsert_first_column (sdk := Spec.echoing) 4 this "cluster1"
              "vault1" "users" records options None _ (Client.initial tt) _ _
              eq_refl (surjective_pairing _)) as (calls & Hsent & Hcalls).
  exists calls. split; [exact Hsent|].
  intros call Hin.
  destruct (Hcalls call Hin) as (batch & o & Hrequest & _ & _ & _ & _ & Hupsert).
  exists batch, o. split; [exact Hrequest|exact Hupsert].
Defined.
